(** * shipit-nx: the [shipIt] executor and the pipeline it drives

    Shallow embedding of [libs/shipit-nx/src/lib/features/ship/impl.ts].
    Promises are values of [Settled]; [await] is the bind of that type, so a
    rejection short-cuts everything that follows it.  The phases act on an
    abstract working state [World]; the run state also keeps a log of the
    phases that were started, which is what the ordering properties speak
    about. *)

From Stdlib Require Import ZArith Lia.
From stdpp Require Import base option relations gmap sets list strings.

Local Open Scope string_scope.
Local Open Scope list_scope.
Local Open Scope nat_scope.
Local Open Scope stdpp_scope.

(** ** JavaScript values, objects and promises *)

Module Js.

(** The error taxonomy of the pipeline; a rejected promise carries one. *)
Inductive Error : Type :=
| ResolutionError (message : string)
| TransportError (message : string)
| IntegrityError (message : string)
| SynchronizationError (message : string)
| PolicyError (message : string)
| OtherError (message : string).

(** A promise once it has settled. *)
Inductive Settled (A : Type) : Type :=
| Fulfilled (value : A)
| Rejected (reason : Error).

Arguments Fulfilled {A} value.
Arguments Rejected {A} reason.

(** [await p] followed by the rest of the async function. *)
Definition await {A B : Type} (p : Settled A) (k : A → Settled B) : Settled B :=
  match p with
  | Fulfilled a => k a
  | Rejected e => Rejected e
  end.

(** The values stored in the object handed to the [ShipConfig] constructor. *)
Inductive Value : Type :=
| VUndefined
| VString (s : string)
| VNumber (n : Z)
| VStrings (items : list string).

(** Truthiness of an optional string: [undefined] and [''] are falsy. *)
Definition truthy (s : option string) : bool :=
  match s with
  | Some s => bool_decide (s ≠ "")
  | None => false
  end.

(** Truthiness of an optional boolean: [undefined] and [false] are falsy. *)
Definition truthyFlag (b : option bool) : bool :=
  match b with
  | Some b => b
  | None => false
  end.

Definition optionalNumber (n : option Z) : Value :=
  match n with
  | Some n => VNumber n
  | None => VUndefined
  end.

Definition optionalString (s : option string) : Value :=
  match s with
  | Some s => VString s
  | None => VUndefined
  end.

End Js.

Export Js.

#[export] Instance settled_ret : MRet Settled := @Fulfilled.
#[export] Instance settled_bind : MBind Settled := λ A B k p, await p k.

(** ** The dependency resolver *)

Module Resolver.

(** Modelled from the spec: the project graph that nx's
    [createProjectGraphAsync] yields, reduced to what the resolver reads: for
    each project name, the names of the projects it directly depends on. *)
Definition directDependencies (graph : gmap string (list string)) (project : string)
  : list string :=
  default [] (graph !! project).

(** Modelled from the spec: the inverted edges of the project graph, that is
    the projects that list [project] among their direct dependencies (used
    by the missing [find-dependents.util]). *)
Definition directDependents (graph : gmap string (list string)) (project : string)
  : list string :=
  (filter (λ entry : string * list string, project ∈ entry.2) (map_to_list graph)).*1.

(** Modelled from the spec: every name that occurs in the graph, as a source
    or as a target; the length of this list bounds the number of projects a
    traversal can discover. *)
Definition graphNames (graph : gmap string (list string)) : list string :=
  map_to_list graph ≫= (λ entry, entry.1 :: entry.2).

(** Modelled from the spec: the visited-set traversal shared by the missing
    [find-dependencies.util] and [find-dependents.util].  [todo] is the work
    list, [visited] the projects already discovered, in discovery order; a
    project that is already visited is skipped, a new one is recorded and its
    neighbours are put on the work list.  [fuel] bounds the number of new
    projects. *)
Fixpoint traverse (next : string → list string) (fuel : nat)
  : list string → list string → list string :=
  fix scan (todo visited : list string) {struct todo} : list string :=
    match todo with
    | [] => visited
    | project :: rest =>
        if bool_decide (project ∈ visited) then scan rest visited
        else match fuel with
             | O => visited
             | S fuel' =>
                 traverse next fuel' (next project ++ rest) (visited ++ [project])
             end
    end.

(** Modelled from the spec: the traversal from [project] over the edges
    [next], without [project] itself; a project that is not in the graph is a
    resolution error. *)
Definition resolve (graph : gmap string (list string)) (next : string → list string)
  (project : string) : Settled (list string) :=
  if bool_decide (project ∈ dom graph) then
    Fulfilled
      (filter (λ name, name ≠ project)
         (traverse next (length (graphNames graph)) (next project) [project]))
  else Rejected (ResolutionError project).

(** Modelled from the spec: the missing [findDependencies] of
    [utils/find-dependencies.util]: all projects transitively reachable from
    [project] along depends-on edges. *)
Definition findDependencies (graph : gmap string (list string)) (project : string)
  : Settled (list string) :=
  resolve graph (directDependencies graph) project.

(** Modelled from the spec: the missing [findDependents] of
    [utils/find-dependents.util]: the same traversal over inverted edges. *)
Definition findDependents (graph : gmap string (list string)) (project : string)
  : Settled (list string) :=
  resolve graph (directDependents graph) project.

(** Modelled from the spec: the missing [findProjectNames] of
    [utils/find-project-names.util]: every project of the workspace, once,
    in the stable order of the map. *)
Definition findProjectNames {A : Type} (projects : gmap string A)
  : Settled (list string) :=
  Fulfilled (map_to_list projects).*1.

(** The depends-on relation of a graph, and what "transitively reachable"
    means for it. *)
Definition dependsOn (graph : gmap string (list string)) (p q : string) : Prop :=
  q ∈ directDependencies graph p.

Definition reaches (graph : gmap string (list string)) (p q : string) : Prop :=
  tc (dependsOn graph) p q.

End Resolver.

(** ** The executor *)

Module Ship.

Export Resolver.

(** The phase classes imported from [../../phases], by name. *)
Inductive PhaseId : Type :=
| ClonePhase
| CorruptionCheckPhase
| CleanPhase
| SyncPhase
| VerifyRepoPhase
| PostProcessPhase
| PushPhase.

#[export] Instance phaseId_eq_dec : EqDecision PhaseId.
Proof. solve_decision. Defined.

(** [ShipExecutorOptions]: [maxWarnings] and [dryRun] are optional. *)
Record ShipExecutorOptions : Type := {
  repo : string;
  branch : string;
  maxWarnings : option Z;
  dryRun : option bool
}.

(** The part of nx's [ProjectConfiguration] that [shipIt] reads. *)
Module ProjectConfiguration.
Record t : Type := make { root : string }.
End ProjectConfiguration.

Record WorkspaceJsonConfiguration : Type := {
  projects : gmap string ProjectConfiguration.t
}.

(** The part of nx's [ExecutorContext] that [shipIt] reads. *)
Record ExecutorContext : Type := {
  root : string;
  projectName : option string;
  workspace : WorkspaceJsonConfiguration
}.

(** What [shipIt] resolves to. *)
Record ShipResult : Type := { success : bool }.

(** Modelled from the spec: the missing class [ShipConfig] of
    [configs/ship.config], an immutable value that holds the object its
    constructor received. *)
Record ShipConfig : Type := { settings : gmap string Value }.

(** Modelled from the spec: the [ShipConfig] constructor; it stores its
    argument. *)
Definition newShipConfig (props : gmap string Value) : Settled ShipConfig :=
  Fulfilled {| settings := props |}.

(** Modelled from the spec: the warning threshold of a configuration;
    [fallback] is the implementation-defined value used when [maxWarnings]
    was not given. *)
Definition maxWarningsOf (fallback : Z) (config : ShipConfig) : Z :=
  match settings config !! "maxWarnings" with
  | Some (VNumber n) => n
  | _ => fallback
  end.

(** The keys of the single-project fields of the configuration. *)
Definition singleProjectKeys : list string :=
  ["project"; "projectRoot"; "dependencies"; "dependents"; "workspace"].

(** The context names a single project: [projectName] is present, is not
    the empty string and is not ['workspace']. *)
Definition namesProject (context : ExecutorContext) (name : string) : Prop :=
  projectName context = Some name ∧ name ≠ "" ∧ name ≠ "workspace".

(** Modelled from the spec: what the missing [VerifyRepoPhase] detects in
    the working copy. *)
Record Inspection : Type := {
  warnings : Z;
  missingRequired : bool
}.

Section Pipeline.

Context {World : Type}.

(** The working state the phases act on, with the log of the phases started
    so far: each entry names the phase and tells whether it completed. *)
Record RunState : Type := {
  world : World;
  executed : list (PhaseId * bool)
}.

(** An asynchronous computation: it transforms the run state and settles. *)
Definition Async (A : Type) : Type := RunState → Settled A * RunState.

Definition resolved {A : Type} (a : A) : Async A := λ s, (Fulfilled a, s).

Definition settle {A : Type} (p : Settled A) : Async A := λ s, (p, s).

Definition andThen {A B : Type} (p : Async A) (k : A → Async B) : Async B :=
  λ s, match p s with
       | (Fulfilled a, s') => k a s'
       | (Rejected e, s') => (Rejected e, s')
       end.

(** [p.then(onFulfilled)] for a callback that cannot throw. *)
Definition then_ {A B : Type} (p : Async A) (onFulfilled : A → B) : Async B :=
  λ s, match p s with
       | (Fulfilled a, s') => (Fulfilled (onFulfilled a), s')
       | (Rejected e, s') => (Rejected e, s')
       end.

(** [p.catch(onRejected)] for a callback that cannot throw. *)
Definition catch {A : Type} (p : Async A) (onRejected : Error → A) : Async A :=
  λ s, match p s with
       | (Fulfilled a, s') => (Fulfilled a, s')
       | (Rejected e, s') => (Fulfilled (onRejected e), s')
       end.

(** What [impl.ts] imports: nx's graph provider, the three resolver
    utilities, the [ShipConfig] constructor and the phase runner. *)
Record Imports : Type := {
  createProjectGraphAsync : Settled (gmap string (list string));
  importedFindDependencies : gmap string (list string) → string → Settled (list string);
  importedFindDependents : gmap string (list string) → string → Settled (list string);
  importedFindProjectNames : gmap string ProjectConfiguration.t → Settled (list string);
  importedShipConfig : gmap string Value → Settled ShipConfig;
  importedRunPhases : list PhaseId → ShipConfig → Async unit
}.

(** The object spread into the constructor argument (lines 34-42): the five
    single-project fields when the context names a project other than
    ['workspace'], the empty object otherwise. *)
Definition singleProjectFields (im : Imports) (projectGraph : gmap string (list string))
  (context : ExecutorContext) : Settled (gmap string Value) :=
  match projectName context with
  | Some name =>
      if truthy (Some name) && bool_decide (name ≠ "workspace") then
        dependencies ← importedFindDependencies im projectGraph name;
        dependents ← importedFindDependents im projectGraph name;
        names ← importedFindProjectNames im (projects (workspace context));
        mret (<["project" := VString name]>
             (<["projectRoot" :=
                  optionalString
                    (ProjectConfiguration.root <$> projects (workspace context) !! name)]>
             (<["dependencies" := VStrings dependencies]>
             (<["dependents" := VStrings dependents]>
             (<["workspace" := VStrings names]> ∅)))))
      else mret ∅
  | None => mret ∅
  end.

(** The argument of [new ShipConfig(...)] (lines 29-43); the spread comes
    last, so its keys win. *)
Definition shipConfigProps (im : Imports) (projectGraph : gmap string (list string))
  (options : ShipExecutorOptions) (context : ExecutorContext)
  : Settled (gmap string Value) :=
  fields ← singleProjectFields im projectGraph context;
  mret (fields ∪
        (<["sourcePath" := VString (root context)]>
        (<["maxWarnings" := optionalNumber (maxWarnings options)]>
        (<["destinationRepoURL" := VString (repo options)]>
        (<["destinationBranch" := VString (branch options)]> ∅))))).

(** Everything [shipIt] does before it calls [runPhases] (lines 27-43). *)
Definition shipConfig (im : Imports) (options : ShipExecutorOptions)
  (context : ExecutorContext) : Settled ShipConfig :=
  projectGraph ← createProjectGraphAsync im;
  props ← shipConfigProps im projectGraph options context;
  importedShipConfig im props.

(** The phase list handed to [runPhases] (lines 46-54). *)
Definition shipPhases (options : ShipExecutorOptions) : list PhaseId :=
  [ClonePhase; CorruptionCheckPhase; CleanPhase; SyncPhase; VerifyRepoPhase;
   PostProcessPhase]
  ++ (if truthyFlag (dryRun options) then [] else [PushPhase]).

(** [shipIt] (lines 26-59). *)
Definition shipIt (im : Imports) (options : ShipExecutorOptions)
  (context : ExecutorContext) : Async ShipResult :=
  andThen (settle (shipConfig im options context)) (λ config,
    catch
      (then_ (importedRunPhases im (shipPhases options) config)
             (λ _, {| success := true |}))
      (λ _, {| success := false |})).

(** *** The phases and their runner *)

(** Modelled from the spec: the filesystem and git capability behind the
    missing phase classes.  Each action receives the configuration and the
    working state, leaves a new working state and either completes ([None])
    or fails; [inspect] is what VerifyRepo detects in the working copy. *)
Record Capabilities : Type := {
  clone : ShipConfig → World → option Error * World;
  corruptionCheck : ShipConfig → World → option Error * World;
  clean : ShipConfig → World → option Error * World;
  sync : ShipConfig → World → option Error * World;
  postProcess : ShipConfig → World → option Error * World;
  push : ShipConfig → World → option Error * World;
  inspect : World → Inspection;
  defaultMaxWarnings : Z
}.

(** Modelled from the spec: what the missing [VerifyRepoPhase] decides: the
    policy is violated when more warnings are detected than [maxWarnings]
    allows or when a required artifact is missing. *)
Definition policyViolated (caps : Capabilities) (config : ShipConfig) (w : World)
  : bool :=
  (maxWarningsOf (defaultMaxWarnings caps) config <? warnings (inspect caps w))%Z
  || missingRequired (inspect caps w).

(** Modelled from the spec: the missing [VerifyRepoPhase]; it inspects the
    working copy and fails when the policy is violated. *)
Definition verifyRepo (caps : Capabilities) (config : ShipConfig) (w : World)
  : option Error * World :=
  if policyViolated caps config w then (Some (PolicyError "VerifyRepo"), w)
  else (None, w).

(** Modelled from the spec: the action of each of the missing phase
    classes. *)
Definition phaseAction (caps : Capabilities) (phase : PhaseId)
  : ShipConfig → World → option Error * World :=
  match phase with
  | ClonePhase => clone caps
  | CorruptionCheckPhase => corruptionCheck caps
  | CleanPhase => clean caps
  | SyncPhase => sync caps
  | VerifyRepoPhase => verifyRepo caps
  | PostProcessPhase => postProcess caps
  | PushPhase => push caps
  end.

(** Modelled from the spec: one phase of the missing [runPhases]: the phase
    is run on the current working state and logged with its outcome. *)
Definition runPhase (caps : Capabilities) (phase : PhaseId) (config : ShipConfig)
  : Async unit :=
  λ s, match phaseAction caps phase config (world s) with
       | (None, w) =>
           (Fulfilled (), {| world := w; executed := executed s ++ [(phase, true)] |})
       | (Some e, w) =>
           (Rejected e, {| world := w; executed := executed s ++ [(phase, false)] |})
       end.

(** Modelled from the spec: the missing [runPhases] of [../../phases]: the
    phases run in the given order, each awaited before the next starts, and
    the first failure rejects the promise without running the rest. *)
Fixpoint runPhases (caps : Capabilities) (phases : list PhaseId) (config : ShipConfig)
  : Async unit :=
  match phases with
  | [] => resolved ()
  | phase :: rest =>
      andThen (runPhase caps phase config) (λ _, runPhases caps rest config)
  end.

(** The imports as the repository provides them: the resolver utilities, the
    [ShipConfig] constructor and the phase runner modelled above, over a
    graph provider and a capability. *)
Definition shipitNx (graph : Settled (gmap string (list string))) (caps : Capabilities)
  : Imports := {|
  createProjectGraphAsync := graph;
  importedFindDependencies := findDependencies;
  importedFindDependents := findDependents;
  importedFindProjectNames := findProjectNames;
  importedShipConfig := newShipConfig;
  importedRunPhases := runPhases caps
|}.

(** The log entry of a phase that completed, and of one that failed. *)
Definition completed (phase : PhaseId) : PhaseId * bool := (phase, true).

Definition failed (phase : PhaseId) : PhaseId * bool := (phase, false).

(** [Completes caps config phases w w']: run in order from the working state
    [w], every phase of [phases] completes, and [w'] is the state they leave. *)
Inductive Completes (caps : Capabilities) (config : ShipConfig)
  : list PhaseId → World → World → Prop :=
| Completes_nil w : Completes caps config [] w w
| Completes_cons phase rest w w1 w2 :
    phaseAction caps phase config w = (None, w1) →
    Completes caps config rest w1 w2 →
    Completes caps config (phase :: rest) w w2.

(** The phases of a log, in the order they were started. *)
Definition phasesOf (log : list (PhaseId * bool)) : list PhaseId := log.*1.

End Pipeline.

Arguments RunState : clear implicits.
Arguments Async : clear implicits.
Arguments Imports : clear implicits.
Arguments Capabilities : clear implicits.

End Ship.

(** ** Concrete graphs, capabilities and invocations *)

Module Examples.

Import Ship.

(** The chain of the spec's scenario: A depends on B, B depends on C. *)
Definition chain : gmap string (list string) :=
  <["A" := ["B"]]> (<["B" := ["C"]]> (<["C" := []]> ∅)).

(** A diamond closed into a cycle: A depends on B and C, both depend on D,
    and D depends on A again. *)
Definition ring : gmap string (list string) :=
  <["A" := ["B"; "C"]]> (<["B" := ["D"]]> (<["C" := ["D"]]> (<["D" := ["A"]]> ∅))).

(** The working state of the examples is the number of warnings that the
    working copy holds. *)
Definition quiet (config : ShipConfig) (w : Z) : option Error * Z := (None, w).

Definition refuse (e : Error) (config : ShipConfig) (w : Z) : option Error * Z :=
  (Some e, w).

(** A capability on which every action completes. *)
Definition steady : Capabilities Z := {|
  clone := quiet;
  corruptionCheck := quiet;
  clean := quiet;
  sync := quiet;
  postProcess := quiet;
  push := quiet;
  inspect := λ w, {| warnings := w; missingRequired := false |};
  defaultMaxWarnings := 0
|}.

(** The clone turns out to be corrupted. *)
Definition corrupted : Capabilities Z := {|
  clone := quiet;
  corruptionCheck := refuse (IntegrityError "corrupted history");
  clean := quiet;
  sync := quiet;
  postProcess := quiet;
  push := quiet;
  inspect := λ w, {| warnings := w; missingRequired := false |};
  defaultMaxWarnings := 0
|}.

(** PostProcess finds nothing to commit. *)
Definition stuck : Capabilities Z := {|
  clone := quiet;
  corruptionCheck := quiet;
  clean := quiet;
  sync := quiet;
  postProcess := refuse (OtherError "nothing to commit");
  push := quiet;
  inspect := λ w, {| warnings := w; missingRequired := false |};
  defaultMaxWarnings := 0
|}.

Definition shipTo (threshold : option Z) (dry : option bool) : ShipExecutorOptions := {|
  repo := "git@example.org:ship/target.git";
  branch := "main";
  maxWarnings := threshold;
  dryRun := dry
|}.

Definition threeProjects : WorkspaceJsonConfiguration := {|
  projects :=
    <["A" := ProjectConfiguration.make "libs/a"]>
    (<["B" := ProjectConfiguration.make "libs/b"]>
    (<["C" := ProjectConfiguration.make "libs/c"]> ∅))
|}.

Definition invoke (name : option string) : ExecutorContext := {|
  root := "/monorepo";
  projectName := name;
  workspace := threeProjects
|}.

(** A run that starts with [w] warnings in the working copy and an empty log. *)
Definition fresh (w : Z) : RunState Z := {| world := w; executed := [] |}.

End Examples.

(** ** Mapping over asynchronous results ([util-std-result], [map.async.ts]) *)

Module MapAsync.

(** The [Result] that [map.async.ts] imports from [./result], as the two
    functions read it: a value with an [ok] field, recognised by [isOk] and
    built by [ok], or a value with a [failure] field, recognised by
    [isFailure] and built by [fail]. *)
Inductive Result (A E : Type) : Type :=
| Ok (ok : A)
| Failure (failure : E).

Arguments Ok {A E} ok.
Arguments Failure {A E} failure.

(** [mapOkAsync] (lines 6-19).  [input] and the result of [mapFn] are a value
    or a promise; awaiting either gives a settled promise. *)
Definition mapOkAsync {A B E : Type} (mapFn : A → Settled B)
  (input : Settled (Result A E)) : Settled (Result B E) :=
  awaitedInput ← input;
  match awaitedInput with
  | Ok a => result ← mapFn a; mret (Ok result)
  | Failure e => mret (Failure e)
  end.

(** [mapFailureAsync] (lines 21-34). *)
Definition mapFailureAsync {A E F : Type} (mapFn : E → Settled F)
  (input : Settled (Result A E)) : Settled (Result A F) :=
  awaitedInput ← input;
  match awaitedInput with
  | Failure e => result ← mapFn e; mret (Failure result)
  | Ok a => mret (Ok a)
  end.

End MapAsync.

(** ** The tabbed container ([fscomponents], [TabbedContainer.tsx]) *)

Module TabbedContainer.

Section Component.

Context {Element Node : Type}.

(** [Tab]: the element of the unselected tab, the element of the selected
    tab and the function that renders the content. *)
Record Tab : Type := {
  tab : Element;
  activeTab : Element;
  renderContent : unit → Node
}.

(** The properties the component reads; indexes are integers, and
    [onTabSwitch] tells whether the callback is given (its calls are kept in
    the log of the component). *)
Record TabbedContainerProps : Type := {
  initialIndex : option Z;
  tabs : list Tab;
  onTabSwitch : bool
}.

(** The hook state [selectedIndex] with the calls of [onTabSwitch] so far. *)
Record Container : Type := {
  selectedIndex : Z;
  switches : list Z
}.

(** [useState(props.initialIndex || 0)] on the first render (line 48). *)
Definition mount (props : TabbedContainerProps) : Container := {|
  selectedIndex :=
    match initialIndex props with
    | Some index => if bool_decide (index = 0%Z) then 0%Z else index
    | None => 0%Z
    end;
  switches := []
|}.

(** [selectTab(index)()] (lines 50-55). *)
Definition selectTab (props : TabbedContainerProps) (index : Z) (c : Container)
  : Container := {|
  selectedIndex := index;
  switches := switches c ++ (if onTabSwitch props then [index] else [])
|}.

(** A [TouchableOpacity] of the tab bar: its key, the index its [onPress]
    selects and the element it shows. *)
Record Touchable : Type := {
  key : nat;
  onPress : Z;
  shown : Element
}.

(** [array[index]] for a number index: [undefined] outside the array. *)
Definition at_ {A : Type} (l : list A) (index : Z) : option A :=
  if bool_decide (0 ≤ index)%Z then l !! Z.to_nat index else None.

(** [renderTabs] (lines 57-73). *)
Definition renderTabs (props : TabbedContainerProps) (c : Container) : list Touchable :=
  imap (λ index tab_, {|
          key := index;
          onPress := Z.of_nat index;
          shown :=
            if bool_decide (selectedIndex c = Z.of_nat index) then activeTab tab_
            else tab tab_
        |}) (tabs props).

(** What the component returns (lines 75-80): the tab bar and, below it,
    [props.tabs[selectedIndex]?.renderContent()]. *)
Record Rendered : Type := {
  tabBar : list Touchable;
  content : option Node
}.

Definition render (props : TabbedContainerProps) (c : Container) : Rendered := {|
  tabBar := renderTabs props c;
  content := (λ tab_, renderContent tab_ ()) <$> at_ (tabs props) (selectedIndex c)
|}.

(** Pressing the touchable at position [position] of the tab bar. *)
Definition press (props : TabbedContainerProps) (position : nat) (c : Container)
  : Container :=
  match renderTabs props c !! position with
  | Some touchable => selectTab props (onPress touchable) c
  | None => c
  end.

End Component.

Arguments Tab : clear implicits.
Arguments TabbedContainerProps : clear implicits.
Arguments Touchable : clear implicits.
Arguments Rendered : clear implicits.

(** Three tabs whose elements and contents are strings. *)
Definition threeTabs : TabbedContainerProps string string := {|
  initialIndex := None;
  tabs :=
    [ {| tab := "one"; activeTab := "ONE"; renderContent := λ _, "first" |};
      {| tab := "two"; activeTab := "TWO"; renderContent := λ _, "second" |};
      {| tab := "three"; activeTab := "THREE"; renderContent := λ _, "third" |} ];
  onTabSwitch := true
|}.

End TabbedContainer.

(** ** The image placeholder ([SerializableImagePlaceholder]) *)

Module ImagePlaceholder.

(** What a press does: [onPress(href)] or [navigator.open(href)]. *)
Inductive Effect : Type :=
| OnPress (href : option string)
| NavigatorOpen (href : string).

(** The properties the component reads; [onPress] tells whether the handler
    is given. *)
Record SerializableImageProps : Type := {
  onPress : bool;
  href : option string
}.

(** [handlePress(href)()] (lines 15-21). *)
Definition handlePress (props : SerializableImageProps) (href_ : option string)
  : list Effect :=
  if onPress props then [OnPress href_]
  else if truthy href_ then
    match href_ with
    | Some target => [NavigatorOpen target]
    | None => []
    end
  else [].

(** What the component returns: the image alone, or the image inside a
    [TouchableOpacity] with what its press does. *)
Inductive Rendered : Type :=
| Image
| TouchableImage (onPress_ : list Effect).

(** The component (lines 6-25). *)
Definition SerializableImagePlaceholder (props : SerializableImageProps) : Rendered :=
  if negb (truthy (href props) || onPress props) then Image
  else TouchableImage (handlePress props (href props)).

End ImagePlaceholder.

(** ** The commerce data provider ([fscommerce], [CommerceProvider.tsx]) *)

Module Commerce.

Section Provider.

Context {Product Payload Source Own Query : Type}.

(** The data as [loadMore] reads it through its [any] casts: [page] and
    [minPage] are a number or [undefined], [products] is an array or
    [undefined]; [payload] is the rest of the object. *)
Record Data : Type := {
  page : option Z;
  minPage : option Z;
  products : option (list Product);
  payload : Payload
}.

(** The properties of the provider; [onDataLoaded] and [onDataError] tell
    whether the callback is given, [own] holds the properties of the wrapped
    component. *)
Record Props : Type := {
  commerceDataSource : Source;
  onDataLoaded : bool;
  onDataError : bool;
  productQuery : option Query;
  own : Own
}.

(** [WithCommerceState]. *)
Record State : Type := {
  commerceData : option Data;
  isLoading : bool
}.

(** What the provider does besides updating its state. *)
Inductive Event : Type :=
| DataLoaded (data : Data)
| DataError (error : Error)
| ConsoleError (error : Error).

(** A mounted provider: its state, with each update applied where
    [setState] is called, and the calls it made so far. *)
Record Provider : Type := {
  state : State;
  events : list Event
}.

(** The error thrown when an [undefined] list of products is spread. *)
Variable notIterable : Error.

(** [fetchData] and [initialData], the arguments of [withCommerceData]. *)
Variable fetchData : Source → Props → Settled Data.
Variable initialData : option (Props → option Data).


(** [handleLoadingError] (lines 166-176). *)
Definition handleLoadingError (props : Props) (error : Error) (c : Provider)
  : Provider := {|
  state := {| commerceData := commerceData (state c); isLoading := false |};
  events :=
    events c ++ (if onDataError props then [DataError error] else [])
    ++ [ConsoleError error]
|}.

(** [setData] (lines 183-195). *)
Definition setData (props : Props) (data : option Data) (c : Provider) : Provider := {|
  state := {| commerceData := data; isLoading := false |};
  events :=
    events c ++
    match data with
    | Some loaded => if onDataLoaded props then [DataLoaded loaded] else []
    | None => []
    end
|}.

(** [setState({isLoading: true})]. *)
Definition startLoading (c : Provider) : Provider := {|
  state := {| commerceData := commerceData (state c); isLoading := true |};
  events := events c
|}.



(** The comparison [a > b] of two numbers that may be [undefined]. *)
Definition greater (a b : option Z) : bool :=
  match a, b with
  | Some a, Some b => (b <? a)%Z
  | _, _ => false
  end.

(** [[...a, ...b]]: spreading [undefined] throws. *)
Definition spread (a b : option (list Product)) : option (list Product) :=
  match a, b with
  | Some a, Some b => Some (a ++ b)
  | _, _ => None
  end.

(** What the callback of [request.then] leaves (lines 233-259): the
    provider, the fetched object as the assignments left it, and the error
    thrown, if any. *)
Definition merge (props : Props) (data : Data) (c : Provider)
  : Provider * Data * option Error :=
  match commerceData (state c) with
  | None => (c, data, None)
  | Some current =>
      let current1 := {|
        page := page current;
        minPage :=
          match minPage current with
          | None => page current
          | Some m => Some m
          end;
        products := products current;
        payload := payload current
      |} in
      let c1 := {|
        state := {| commerceData := Some current1; isLoading := isLoading (state c) |};
        events := events c
      |} in
      let data1 := {|
        page := page data;
        minPage := minPage current1;
        products := products data;
        payload := payload data
      |} in
      if greater (page data1) (page current1) then
        match spread (products current1) (products data1) with
        | Some merged =>
            let data2 := {|
              page := page data1;
              minPage := minPage data1;
              products := Some merged;
              payload := payload data1
            |} in
            (setData props (Some data2) c1, data2, None)
        | None => (c1, data1, Some notIterable)
        end
      else if greater (minPage current1) (page data1) then
        match spread (products data1) (products current1) with
        | Some merged =>
            let data2 := {|
              page := page current1;
              minPage := page data1;
              products := Some merged;
              payload := payload data1
            |} in
            (setData props (Some data2) c1, data2, None)
        | None => (c1, data1, Some notIterable)
        end
      else (c1, data1, None)
  end.

(** [request.then(...).catch(this.handleLoadingError)] of [loadMore] once
    the request has settled, with what the returned [request] holds. *)
Definition moreSettled (props : Props) (request : Settled Data) (c : Provider)
  : Provider * Settled Data :=
  match request with
  | Fulfilled data =>
      match merge props data c with
      | (c', data', None) => (c', Fulfilled data')
      | (c', data', Some error) => (handleLoadingError props error c', Fulfilled data')
      end
  | Rejected error => (handleLoadingError props error c, Rejected error)
  end.

(** [loadMore] (lines 223-265). *)
Definition loadMore (props : Props) (query : Query) (c : Provider)
  : Provider * Settled Data :=
  let request :=
    fetchData (commerceDataSource props)
      {| commerceDataSource := commerceDataSource props;
         onDataLoaded := onDataLoaded props;
         onDataError := onDataError props;
         productQuery := Some query;
         own := own props |} in
  moreSettled props request (startLoading c).


(** The pages held by a data object form a range: [minPage], when set, is
    not above [page]. *)
Definition ranged (data : Data) : Prop :=
  ∀ m q, minPage data = Some m → page data = Some q → (m ≤ q)%Z.

End Provider.

Arguments Data : clear implicits.
Arguments Props : clear implicits.
Arguments State : clear implicits.
Arguments Event : clear implicits.
Arguments Provider : clear implicits.

(** A catalogue that serves one product per page for pages 1 to 3, and
    a fourth page that has no list of products. *)
Definition shelf (number : Z) (items : option (list string)) : Data string unit := {|
  page := Some number;
  minPage := None;
  products := items;
  payload := ()
|}.

Definition catalogue (source : unit) (props : Props unit unit Z)
  : Settled (Data string unit) :=
  match productQuery props with
  | Some 1%Z => Fulfilled (shelf 1 (Some ["first"]))
  | Some 2%Z => Fulfilled (shelf 2 (Some ["second"]))
  | Some 3%Z => Fulfilled (shelf 3 (Some ["third"]))
  | Some 4%Z => Fulfilled (shelf 4 None)
  | Some _ => Rejected (TransportError "no such page")
  | None => Fulfilled (shelf 2 (Some ["second"]))
  end.

Definition shopper : Props unit unit Z := {|
  commerceDataSource := ();
  onDataLoaded := true;
  onDataError := true;
  productQuery := None;
  own := ()
|}.

(** A provider that holds page 2 and has reported nothing yet. *)
Definition onPageTwo : Provider string unit := {|
  state := {| commerceData := Some (shelf 2 (Some ["second"])); isLoading := false |};
  events := []
|}.

End Commerce.

(** ** Imports whose resolver utilities are out of order *)

Module Outage.

Import Ship.

Definition unresolvable : Imports Z := {|
  createProjectGraphAsync := Fulfilled Examples.chain;
  importedFindDependencies := λ _ _, Rejected (ResolutionError "unavailable");
  importedFindDependents := λ _ _, Rejected (ResolutionError "unavailable");
  importedFindProjectNames := λ _, Rejected (ResolutionError "unavailable");
  importedShipConfig := newShipConfig;
  importedRunPhases := runPhases Examples.steady
|}.

End Outage.

Import Ship.

(** ** The traversal discovers exactly what is reachable *)

Section Traversal.

Variable next : string → list string.
Variable universe : gset string.
Hypothesis next_universe : ∀ x y, y ∈ next x → y ∈ universe.

Let edge (x y : string) : Prop := y ∈ next x.

(** What a finished traversal guarantees about its result. *)
Record traversed (todo visited result : list string) : Prop := {
  traversed_nodup : NoDup result;
  traversed_visited : ∀ x, x ∈ visited → x ∈ result;
  traversed_todo : ∀ x, x ∈ todo → x ∈ result;
  traversed_closed : ∀ x y, x ∈ result → x ∉ visited → y ∈ next x → y ∈ result;
  traversed_sound :
    ∀ y, y ∈ result → y ∈ visited ∨ ∃ x, x ∈ todo ∧ rtc edge x y
}.

Lemma traverse_nil fuel visited : traverse next fuel [] visited = visited.
Proof. by destruct fuel. Qed.

Lemma traverse_seen fuel x rest visited :
  x ∈ visited →
  traverse next fuel (x :: rest) visited = traverse next fuel rest visited.
Proof. intros Hx. destruct fuel; simpl; by rewrite bool_decide_eq_true_2. Qed.

Lemma traverse_fresh fuel x rest visited :
  x ∉ visited →
  traverse next (S fuel) (x :: rest) visited
  = traverse next fuel (next x ++ rest) (visited ++ [x]).
Proof. intros Hx. simpl. by rewrite bool_decide_eq_false_2. Qed.

Lemma traversed_done visited : NoDup visited → traversed [] visited visited.
Proof.
  intros Hnd. split; [done|done| | |by left].
  - intros x Hx. by apply elem_of_nil in Hx.
  - intros x y Hx Hnx. done.
Qed.

Lemma traversed_skip x rest visited result :
  x ∈ visited → traversed rest visited result → traversed (x :: rest) visited result.
Proof.
  intros Hx [Hnd Hvis Htodo Hclosed Hsound]. split; [done|done| |done|].
  - intros z [->|Hz]%elem_of_cons; auto.
  - intros y Hy. destruct (Hsound y Hy) as [?|(z & Hz & Hzy)]; [by left|].
    right. exists z. split; [by right|done].
Qed.

Lemma traversed_visit x rest visited result :
  x ∉ visited →
  traversed (next x ++ rest) (visited ++ [x]) result →
  traversed (x :: rest) visited result.
Proof.
  intros Hx [Hnd Hvis Htodo Hclosed Hsound]. split; [done| | | |].
  - intros z Hz. apply Hvis, elem_of_app. by left.
  - intros z [->|Hz]%elem_of_cons.
    + apply Hvis, elem_of_app. right. by left.
    + apply Htodo, elem_of_app. by right.
  - intros z y Hz Hnz Hy. destruct (decide (z = x)) as [->|Hne].
    + apply Htodo, elem_of_app. by left.
    + apply (Hclosed z y); [done| |done].
      intros [?|?%list_elem_of_singleton]%elem_of_app; done.
  - intros y Hy. destruct (Hsound y Hy) as [Hv|(z & Hz & Hzy)].
    + apply elem_of_app in Hv as [?| ->%list_elem_of_singleton]; [by left|].
      right. exists x. split; [by left|done].
    + right. apply elem_of_app in Hz as [Hz|Hz].
      * exists x. split; [by left|]. by eapply rtc_l.
      * exists z. split; [by right|done].
Qed.

Lemma unvisited_shrinks x (visited : list string) :
  x ∈ universe → x ∉ visited →
  size (universe ∖ list_to_set visited) ≠ 0
  ∧ size (universe ∖ list_to_set (visited ++ [x]))
    < size (universe ∖ list_to_set visited).
Proof.
  intros Hu Hx.
  assert (x ∈ universe ∖ list_to_set visited) as Hin.
  { apply elem_of_difference. split; [done|]. by rewrite elem_of_list_to_set. }
  split.
  - intros Hempty%size_empty_inv. by apply Hempty in Hin.
  - apply subset_size. split.
    + intros z. rewrite !elem_of_difference, !elem_of_list_to_set, elem_of_app. tauto.
    + intros Hsub. apply Hsub in Hin. revert Hin.
      rewrite elem_of_difference, elem_of_list_to_set, elem_of_app.
      intros [_ Hin]. apply Hin. right. by left.
Qed.

(** With enough fuel for the projects not yet visited, the traversal ends
    with a duplicate-free list that contains what was visited and what was
    on the work list, is closed under [next] and holds nothing else. *)
Lemma traverse_traversed fuel : ∀ todo visited,
  (∀ x, x ∈ todo → x ∈ universe) →
  size (universe ∖ list_to_set visited) ≤ fuel →
  NoDup visited →
  traversed todo visited (traverse next fuel todo visited).
Proof.
  induction fuel as [|fuel IH]; intros todo;
    induction todo as [|x rest IHrest]; intros visited Htodo Hfuel Hnd;
    try (rewrite traverse_nil; by apply traversed_done);
    (destruct (decide (x ∈ visited)) as [Hx|Hx];
     [ rewrite traverse_seen by done; apply traversed_skip; [done|];
       apply IHrest; [|done|done]; intros z Hz; apply Htodo; by right | ]);
    assert (x ∈ universe) as Hu by (apply Htodo; by left);
    destruct (unvisited_shrinks x visited Hu Hx) as [Hpos Hlt].
  - lia.
  - rewrite traverse_fresh by done. apply traversed_visit; [done|].
    apply IH.
    + intros z [Hz|Hz]%elem_of_app; [by eapply next_universe|].
      apply Htodo. by right.
    + lia.
    + apply NoDup_app. split; [done|]. split; [|apply NoDup_singleton].
      intros z Hz ->%list_elem_of_singleton. done.
Qed.

End Traversal.

Lemma size_list_to_set_le (l : list string) (X : gset string) :
  size (list_to_set l ∖ X : gset string) ≤ length l.
Proof.
  transitivity (size (list_to_set l : gset string)).
  - apply subseteq_size. intros z. rewrite elem_of_difference. tauto.
  - induction l as [|x l IH].
    + rewrite list_to_set_nil, size_empty. done.
    + rewrite list_to_set_cons, size_union_alt, size_singleton. simpl.
      assert (size (list_to_set l ∖ {[x]} : gset string) ≤ size (list_to_set l : gset string)).
      { apply subseteq_size. intros z. rewrite elem_of_difference. tauto. }
      lia.
Qed.

Lemma tc_inverse {A : Type} (R S : relation A) :
  (∀ x y, S x y → R y x) → ∀ x y, tc S x y → tc R y x.
Proof.
  intros HRS x y Htc. induction Htc as [x y Hxy|x y z Hxy _ IH].
  - by apply tc_once, HRS.
  - eapply tc_r; [done|]. by apply HRS.
Qed.

Section ResolverFacts.

Variable graph : gmap string (list string).

Lemma directDependencies_names x y :
  y ∈ directDependencies graph x → y ∈ graphNames graph.
Proof.
  unfold directDependencies, graphNames. intros Hy.
  destruct (graph !! x) as [ds|] eqn:Hx; simpl in Hy; [|by apply elem_of_nil in Hy].
  apply list_elem_of_bind. exists (x, ds). split; [by right|].
  by apply elem_of_map_to_list.
Qed.

Lemma elem_of_directDependents x y :
  y ∈ directDependents graph x ↔ x ∈ directDependencies graph y.
Proof.
  unfold directDependents, directDependencies. rewrite list_elem_of_fmap. split.
  - intros ([k ds] & -> & Hin). apply list_elem_of_filter in Hin as [Hx Hin].
    apply elem_of_map_to_list in Hin. simpl in *. by rewrite Hin.
  - intros Hx. destruct (graph !! y) as [ds|] eqn:Hy; simpl in Hx;
      [|by apply elem_of_nil in Hx].
    exists (y, ds). split; [done|]. apply list_elem_of_filter. split; [done|].
    by apply elem_of_map_to_list.
Qed.

Lemma directDependents_names x y :
  y ∈ directDependents graph x → y ∈ graphNames graph.
Proof.
  rewrite elem_of_directDependents. unfold directDependencies, graphNames. intros Hx.
  destruct (graph !! y) as [ds|] eqn:Hy; simpl in Hx; [|by apply elem_of_nil in Hx].
  apply list_elem_of_bind. exists (y, ds). split; [by left|].
  by apply elem_of_map_to_list.
Qed.

(** The resolver over any edge function that stays within the names of the
    graph: total on the projects of the graph, duplicate-free, and exactly
    the projects reachable in one step or more, the start excluded. *)
Lemma resolve_reachable (next : string → list string) (project : string) :
  (∀ x y, y ∈ next x → y ∈ graphNames graph) →
  project ∈ dom graph →
  ∃ found,
    resolve graph next project = Fulfilled found
    ∧ NoDup found
    ∧ ∀ q, q ∈ found ↔ q ≠ project ∧ tc (λ x y, y ∈ next x) project q.
Proof.
  intros Hnext Hdom. unfold resolve. rewrite bool_decide_eq_true_2 by done.
  eexists. split; [done|].
  assert (traversed next (next project) [project]
            (traverse next (length (graphNames graph)) (next project) [project]))
    as [Hnd Hvis Htodo Hclosed Hsound].
  { apply (traverse_traversed next (list_to_set (graphNames graph))).
    - intros x y Hy. apply elem_of_list_to_set. by eapply Hnext.
    - intros x Hx. apply elem_of_list_to_set. by eapply Hnext.
    - apply size_list_to_set_le.
    - apply NoDup_singleton. }
  split; [by apply NoDup_filter|].
  intros q. rewrite list_elem_of_filter. split.
  - intros [Hne Hq]. split; [done|].
    destruct (Hsound q Hq) as [Hp%list_elem_of_singleton|(x & Hx & Hxq)]; [done|].
    eapply tc_rtc_r; [|done]. by apply tc_once.
  - intros [Hne Htc]. split; [done|].
    assert (∀ x y,
      x ∈ traverse next (length (graphNames graph)) (next project) [project] →
      y ∈ next x →
      y ∈ traverse next (length (graphNames graph)) (next project) [project])
      as Hstep.
    { intros x y Hx Hy. destruct (decide (x = project)) as [->|Hxp].
      - by apply Htodo.
      - apply (Hclosed x y); [done| |done]. by intros ?%list_elem_of_singleton. }
    assert (project ∈ traverse next (length (graphNames graph)) (next project) [project])
      as Hstart by (apply Hvis; by left).
    revert Hstart. generalize Hstep.
    generalize (traverse next (length (graphNames graph)) (next project) [project]).
    clear -Htc. intros result Hstep.
    induction Htc as [x y Hxy|x y z Hxy _ IH]; eauto.
Qed.

End ResolverFacts.

(** ** The phase runner *)

Section RunnerFacts.

Context {World : Type}.
Variable caps : Capabilities World.
Variable config : ShipConfig.

Lemma Completes_app pre post w w1 w2 :
  Completes caps config pre w w1 →
  Completes caps config post w1 w2 →
  Completes caps config (pre ++ post) w w2.
Proof.
  induction 1 as [|phase rest w w' w1 Hphase _ IH]; intros Hpost; [done|].
  simpl. econstructor; eauto.
Qed.

Lemma runPhases_completes phases : ∀ s w',
  Completes caps config phases (world s) w' →
  runPhases caps phases config s
  = (Fulfilled (), {| world := w'; executed := executed s ++ map completed phases |}).
Proof.
  induction phases as [|phase rest IH]; intros s w' Hrun;
    inversion Hrun as [|? ? ? w1 ? Hphase Hrest]; subst.
  - simpl. unfold resolved. destruct s; simpl. by rewrite app_nil_r.
  - simpl. unfold andThen, runPhase. rewrite Hphase.
    rewrite (IH _ w') by done. simpl. by rewrite <- app_assoc.
Qed.

Lemma runPhases_fails pre phase post : ∀ s w e w',
  Completes caps config pre (world s) w →
  phaseAction caps phase config w = (Some e, w') →
  runPhases caps (pre ++ phase :: post) config s
  = (Rejected e,
     {| world := w'; executed := executed s ++ map completed pre ++ [failed phase] |}).
Proof.
  induction pre as [|first pre IH]; intros s w e w' Hpre Hfail;
    inversion Hpre as [|? ? ? w1 ? Hphase Hrest]; subst.
  - simpl. unfold andThen, runPhase. by rewrite Hfail.
  - simpl. unfold andThen, runPhase. rewrite Hphase.
    erewrite IH by eauto. simpl. by rewrite <- app_assoc.
Qed.

(** Every run of the phase runner is of one of the two kinds above. *)
Lemma runPhases_outcome phases : ∀ s r s',
  runPhases caps phases config s = (r, s') →
  (r = Fulfilled ()
   ∧ Completes caps config phases (world s) (world s')
   ∧ executed s' = executed s ++ map completed phases)
  ∨ (∃ pre phase post w e,
       r = Rejected e
       ∧ phases = pre ++ phase :: post
       ∧ Completes caps config pre (world s) w
       ∧ phaseAction caps phase config w = (Some e, world s')
       ∧ executed s' = executed s ++ map completed pre ++ [failed phase]).
Proof.
  induction phases as [|phase rest IH]; intros s r s' Hrun.
  - simpl in Hrun. unfold resolved in Hrun. injection Hrun as <- <-.
    left. split; [done|]. split; [constructor|]. by rewrite app_nil_r.
  - simpl in Hrun. unfold andThen, runPhase in Hrun.
    destruct (phaseAction caps phase config (world s)) as [[e|] w] eqn:Hphase.
    + injection Hrun as <- <-. right. exists [], phase, rest, (world s), e.
      repeat split; [constructor|done].
    + apply IH in Hrun
        as [(-> & Hrest & Hlog)
           |(pre & ph & post & w1 & e & -> & -> & Hpre & Hfail & Hlog)];
        simpl in *.
      * left. split; [done|]. split; [by econstructor|].
        by rewrite Hlog, <- app_assoc.
      * right. exists (phase :: pre), ph, post, w1, e.
        repeat split; [by econstructor|done|].
        by rewrite Hlog, <- app_assoc.
Qed.

Lemma failed_not_completed phase phases : failed phase ∉ map completed phases.
Proof.
  intros Hin. apply list_elem_of_fmap in Hin as (other & Heq & _).
  unfold failed, completed in Heq. congruence.
Qed.

End RunnerFacts.

(** ** [shipIt], before and after the hand-over to [runPhases] *)

Section ShipFacts.

Context {World : Type}.

Lemma shipIt_unfold (im : Imports World) options context s :
  shipIt im options context s
  = match shipConfig im options context with
    | Fulfilled config =>
        match importedRunPhases im (shipPhases options) config s with
        | (Fulfilled _, s') => (Fulfilled {| success := true |}, s')
        | (Rejected _, s') => (Fulfilled {| success := false |}, s')
        end
    | Rejected e => (Rejected e, s)
    end.
Proof.
  unfold shipIt, andThen, settle, catch, then_.
  destruct (shipConfig im options context) as [config|e]; [|done].
  by destruct (importedRunPhases im (shipPhases options) config s) as [[?|?] ?].
Qed.

Lemma shipPhases_standard options :
  truthyFlag (dryRun options) = false →
  shipPhases options
  = [ClonePhase; CorruptionCheckPhase; CleanPhase; SyncPhase; VerifyRepoPhase;
     PostProcessPhase; PushPhase].
Proof. intros Hdry. unfold shipPhases. by rewrite Hdry. Qed.

Lemma shipPhases_dryRun options :
  truthyFlag (dryRun options) = true →
  shipPhases options
  = [ClonePhase; CorruptionCheckPhase; CleanPhase; SyncPhase; VerifyRepoPhase;
     PostProcessPhase].
Proof. intros Hdry. unfold shipPhases. by rewrite Hdry. Qed.

(** A run of [shipIt] over the repository's imports in which the phases
    complete. *)
Lemma shipIt_completes graph (caps : Capabilities World) options context config s w' :
  shipConfig (shipitNx graph caps) options context = Fulfilled config →
  Completes caps config (shipPhases options) (world s) w' →
  shipIt (shipitNx graph caps) options context s
  = (Fulfilled {| success := true |},
     {| world := w'; executed := executed s ++ map completed (shipPhases options) |}).
Proof.
  intros Hconfig Hrun. rewrite shipIt_unfold, Hconfig.
  cbn [importedRunPhases shipitNx].
  by rewrite (runPhases_completes caps config _ s w').
Qed.

(** A run of [shipIt] over the repository's imports in which a phase fails. *)
Lemma shipIt_fails graph (caps : Capabilities World) options context config
  pre phase post s w e w' :
  shipConfig (shipitNx graph caps) options context = Fulfilled config →
  shipPhases options = pre ++ phase :: post →
  Completes caps config pre (world s) w →
  phaseAction caps phase config w = (Some e, w') →
  shipIt (shipitNx graph caps) options context s
  = (Fulfilled {| success := false |},
     {| world := w'; executed := executed s ++ map completed pre ++ [failed phase] |}).
Proof.
  intros Hconfig Hphases Hpre Hfail. rewrite shipIt_unfold, Hconfig.
  cbn [importedRunPhases shipitNx]. rewrite Hphases.
  by rewrite (runPhases_fails caps config pre phase post s w e w').
Qed.

(** The constructor argument keeps the options next to the spread fields. *)
Lemma shipConfigProps_inv (im : Imports World) projectGraph options context props :
  shipConfigProps im projectGraph options context = Fulfilled props →
  ∃ fields,
    singleProjectFields im projectGraph context = Fulfilled fields
    ∧ props = fields ∪
        (<["sourcePath" := VString (root context)]>
        (<["maxWarnings" := optionalNumber (maxWarnings options)]>
        (<["destinationRepoURL" := VString (repo options)]>
        (<["destinationBranch" := VString (branch options)]> ∅)))).
Proof.
  unfold shipConfigProps.
  destruct (singleProjectFields im projectGraph context) as [fields|e]; simpl; [|done].
  intros [= <-]. by exists fields.
Qed.

(** The keys of the spread object are the single-project keys, or none. *)
Lemma singleProjectFields_keys (im : Imports World) projectGraph context fields :
  singleProjectFields im projectGraph context = Fulfilled fields →
  ∀ key, is_Some (fields !! key) → key ∈ singleProjectKeys.
Proof.
  unfold singleProjectFields. intros Hfields key [v Hv].
  destruct (projectName context) as [name|]; cycle 1.
  { injection Hfields as <-. by rewrite lookup_empty in Hv. }
  destruct (truthy (Some name) && bool_decide (name ≠ "workspace")); cycle 1.
  { injection Hfields as <-. by rewrite lookup_empty in Hv. }
  destruct (importedFindDependencies im projectGraph name); [|done].
  destruct (importedFindDependents im projectGraph name); [|done].
  destruct (importedFindProjectNames im _); [|done].
  injection Hfields as <-. unfold singleProjectKeys.
  repeat (rewrite lookup_insert in Hv; case_decide; [subst key; by repeat constructor|]).
  by rewrite lookup_empty in Hv.
Qed.

Lemma maxWarningsOf_shipConfig graph (caps : Capabilities World) options context config
  fallback :
  shipConfig (shipitNx graph caps) options context = Fulfilled config →
  maxWarningsOf fallback config = default fallback (maxWarnings options).
Proof.
  unfold shipConfig. simpl. destruct graph as [g|e]; simpl; [|done].
  destruct (shipConfigProps (shipitNx (Fulfilled g) caps) g options context)
    as [props|e] eqn:Hprops; simpl; [|done].
  intros [= <-]. apply shipConfigProps_inv in Hprops as (fields & Hfields & ->).
  unfold maxWarningsOf. simpl.
  assert (fields !! "maxWarnings" = None) as Hnone.
  { destruct (fields !! "maxWarnings") eqn:Hlook; [|done].
    assert ("maxWarnings" ∈ singleProjectKeys) as Hin
      by (eapply singleProjectFields_keys; eauto).
    unfold singleProjectKeys in Hin.
    repeat (apply elem_of_cons in Hin as [Hin|Hin]; [discriminate|]).
    by apply elem_of_nil in Hin. }
  rewrite lookup_union_r by done.
  rewrite lookup_insert_ne by done. rewrite lookup_insert_eq.
  by destruct (maxWarnings options).
Qed.

End ShipFacts.

(** ** The resolver utilities *)

(** C7. For every dependency graph, diamonds and cycles included, and every
    project [p] of it, [findDependencies] returns a list (the traversal is a
    total function, so it terminates) that holds each project at most once
    and holds exactly the projects transitively reachable from [p] along
    depends-on edges, [p] itself excluded. *)
Theorem findDependencies_reachable (graph : gmap string (list string)) (p : string) :
  p ∈ dom graph →
  ∃ found,
    findDependencies graph p = Fulfilled found
    ∧ NoDup found
    ∧ ∀ q, q ∈ found ↔ q ≠ p ∧ reaches graph p q.
Proof.
  intros Hp. unfold findDependencies, reaches.
  apply (resolve_reachable graph (directDependencies graph) p); [|done].
  apply directDependencies_names.
Qed.

Lemma findDependencies_reachable_witness :
  ∃ found,
    findDependencies Examples.ring "A" = Fulfilled found
    ∧ NoDup found
    ∧ ∀ q, q ∈ found ↔ q ≠ "A" ∧ reaches Examples.ring "A" q.
Proof.
  apply (findDependencies_reachable Examples.ring "A").
  apply elem_of_dom. exists ["B"; "C"]. reflexivity.
Defined.

(** On the cyclic diamond the traversal from A finds B, D and C, once each,
    and leaves A out. *)
Example findDependencies_ring :
  findDependencies Examples.ring "A" = Fulfilled ["B"; "D"; "C"].
Proof. vm_compute. reflexivity. Qed.

(** The scenario of the spec on the chain A, B, C. *)
Example resolver_chain :
  findDependencies Examples.chain "A" = Fulfilled ["B"; "C"]
  ∧ findDependents Examples.chain "A" = Fulfilled []
  ∧ findDependencies Examples.chain "C" = Fulfilled []
  ∧ findDependents Examples.chain "C" = Fulfilled ["B"; "A"].
Proof. vm_compute. repeat split. Qed.

(** C8. For every dependency graph and all projects [p] and [q] of it,
    [q] is among [findDependents graph p] exactly when [p] is among
    [findDependencies graph q]. *)
Theorem findDependents_inverse (graph : gmap string (list string)) (p q : string) :
  p ∈ dom graph →
  q ∈ dom graph →
  ∃ dependents dependencies,
    findDependents graph p = Fulfilled dependents
    ∧ findDependencies graph q = Fulfilled dependencies
    ∧ (q ∈ dependents ↔ p ∈ dependencies).
Proof.
  intros Hp Hq.
  destruct (resolve_reachable graph (directDependents graph) p)
    as (dependents & Hdependents & _ & Hin1);
    [apply directDependents_names|done|].
  destruct (resolve_reachable graph (directDependencies graph) q)
    as (dependencies & Hdependencies & _ & Hin2);
    [apply directDependencies_names|done|].
  exists dependents, dependencies. split; [done|]. split; [done|].
  rewrite Hin1, Hin2. split; intros [Hne Htc]; (split; [done|]).
  - revert Htc. apply tc_inverse. intros x y. by rewrite elem_of_directDependents.
  - revert Htc. apply tc_inverse. intros x y. by rewrite elem_of_directDependents.
Qed.

Lemma findDependents_inverse_witness :
  ∃ dependents dependencies,
    findDependents Examples.chain "C" = Fulfilled dependents
    ∧ findDependencies Examples.chain "A" = Fulfilled dependencies
    ∧ ("A" ∈ dependents ↔ "C" ∈ dependencies).
Proof.
  apply (findDependents_inverse Examples.chain "C" "A").
  - apply elem_of_dom. exists []. reflexivity.
  - apply elem_of_dom. exists ["B"]. reflexivity.
Defined.

(** ** The pipeline that [shipIt] runs *)

Section ShipClaims.

Context {World : Type}.

Lemma phasesOf_completed phases : phasesOf (map completed phases) = phases.
Proof. unfold phasesOf. induction phases as [|phase rest IH]; [done|]. simpl. by f_equal. Qed.

(** Whatever happens, [shipIt] over the repository's imports only appends to
    the log, and the phases it appends form a prefix of the list it handed
    to [runPhases]. *)
Lemma shipIt_log_prefix graph (caps : Capabilities World) options context s :
  ∃ log,
    executed (shipIt (shipitNx graph caps) options context s).2 = executed s ++ log
    ∧ (phasesOf log `prefix_of` shipPhases options).
Proof.
  rewrite shipIt_unfold.
  destruct (shipConfig (shipitNx graph caps) options context) as [config|e]; cycle 1.
  { exists []. simpl. split; [by rewrite app_nil_r|apply prefix_nil]. }
  cbn [importedRunPhases shipitNx].
  destruct (runPhases caps (shipPhases options) config s) as [r s'] eqn:Hrun.
  apply runPhases_outcome in Hrun
    as [(-> & _ & Hlog)|(pre & phase & post & w & e & -> & Hphases & _ & _ & Hlog)].
  - exists (map completed (shipPhases options)). simpl. split; [done|].
    by rewrite phasesOf_completed.
  - exists (map completed pre ++ [failed phase]). simpl. split; [done|].
    rewrite Hphases. unfold phasesOf. rewrite fmap_app.
    fold (phasesOf (map completed pre)). rewrite phasesOf_completed. simpl.
    exists post. by rewrite <- app_assoc.
Qed.

(** C1. In a run that is not a dry run and in which every phase completes,
    [shipIt] resolves to [{success: true}] and the log gains exactly the
    seven phases Clone, CorruptionCheck, Clean, Sync, VerifyRepo,
    PostProcess, Push, once each and in this order. *)
Theorem shipIt_standard_run graph (caps : Capabilities World) options context config
  s w' :
  truthyFlag (dryRun options) = false →
  shipConfig (shipitNx graph caps) options context = Fulfilled config →
  Completes caps config
    [ClonePhase; CorruptionCheckPhase; CleanPhase; SyncPhase; VerifyRepoPhase;
     PostProcessPhase; PushPhase] (world s) w' →
  shipIt (shipitNx graph caps) options context s
  = (Fulfilled {| success := true |},
     {| world := w';
        executed := executed s ++
          map completed
            [ClonePhase; CorruptionCheckPhase; CleanPhase; SyncPhase;
             VerifyRepoPhase; PostProcessPhase; PushPhase] |}).
Proof.
  intros Hdry Hconfig Hrun. rewrite <- (shipPhases_standard options Hdry) in *.
  by apply (shipIt_completes graph caps options context config).
Qed.

(** C2. With [dryRun] set to [true] the list handed to [runPhases] is the six
    phases Clone to PostProcess in order; Push is never executed, the phases
    that are executed are an initial part of the six, and all six execute,
    in order, when none of them fails.  With [dryRun] absent the list ends
    with Push. *)
Theorem shipIt_dry_run graph (caps : Capabilities World) options context s :
  dryRun options = Some true →
  shipPhases options
  = [ClonePhase; CorruptionCheckPhase; CleanPhase; SyncPhase; VerifyRepoPhase;
     PostProcessPhase]
  ∧ (∃ log,
       executed (shipIt (shipitNx graph caps) options context s).2 = executed s ++ log
       ∧ (PushPhase ∉ phasesOf log)
       ∧ (phasesOf log `prefix_of`
            [ClonePhase; CorruptionCheckPhase; CleanPhase; SyncPhase; VerifyRepoPhase;
             PostProcessPhase]))
  ∧ (∀ config w',
       shipConfig (shipitNx graph caps) options context = Fulfilled config →
       Completes caps config
         [ClonePhase; CorruptionCheckPhase; CleanPhase; SyncPhase; VerifyRepoPhase;
          PostProcessPhase] (world s) w' →
       shipIt (shipitNx graph caps) options context s
       = (Fulfilled {| success := true |},
          {| world := w';
             executed := executed s ++
               map completed
                 [ClonePhase; CorruptionCheckPhase; CleanPhase; SyncPhase;
                  VerifyRepoPhase; PostProcessPhase] |}))
  ∧ (∀ options',
       dryRun options' = None →
       shipPhases options'
       = [ClonePhase; CorruptionCheckPhase; CleanPhase; SyncPhase; VerifyRepoPhase;
          PostProcessPhase; PushPhase]).
Proof.
  intros Hdry.
  assert (truthyFlag (dryRun options) = true) as Hflag by (by rewrite Hdry).
  pose proof (shipPhases_dryRun options Hflag) as Hsix.
  split; [done|]. split; [|split].
  - destruct (shipIt_log_prefix graph caps options context s) as (log & Hlog & Hprefix).
    rewrite Hsix in Hprefix. exists log. split; [done|]. split; [|done].
    intros Hpush. destruct Hprefix as [rest Hrest].
    assert (PushPhase ∈ phasesOf log ++ rest) as Hin by (apply elem_of_app; by left).
    rewrite <- Hrest in Hin.
    repeat (apply elem_of_cons in Hin as [Hin|Hin]; [discriminate|]).
    by apply elem_of_nil in Hin.
  - intros config w' Hconfig Hrun. rewrite <- Hsix in *.
    by apply (shipIt_completes graph caps options context config).
  - intros options' Hnone. apply shipPhases_standard. by rewrite Hnone.
Qed.

(** C3. The runner is fail-fast: when the phases before [phase] complete and
    [phase] fails, the promise is rejected with that failure, the log gains
    the completed phases and the failed one and nothing else, and the
    working state is the one the failed phase left; no phase listed after it
    is executed.  [shipIt] then resolves to [{success: false}] over the same
    state, so when CorruptionCheck fails none of Clean, Sync, VerifyRepo,
    PostProcess and Push is executed. *)
Theorem runPhases_fail_fast (caps : Capabilities World) config pre phase post s w e w' :
  Completes caps config pre (world s) w →
  phaseAction caps phase config w = (Some e, w') →
  runPhases caps (pre ++ phase :: post) config s
  = (Rejected e,
     {| world := w'; executed := executed s ++ map completed pre ++ [failed phase] |})
  ∧ (∀ later, later ∈ post → later ∉ pre → later ≠ phase →
       later ∉ phasesOf (map completed pre ++ [failed phase]))
  ∧ (∀ graph options context,
       shipConfig (shipitNx graph caps) options context = Fulfilled config →
       shipPhases options = pre ++ phase :: post →
       shipIt (shipitNx graph caps) options context s
       = (Fulfilled {| success := false |},
          {| world := w';
             executed := executed s ++ map completed pre ++ [failed phase] |})).
Proof.
  intros Hpre Hfail. split; [by eapply runPhases_fails|]. split.
  - intros later _ Hpre' Hphase. unfold phasesOf. rewrite fmap_app.
    fold (phasesOf (map completed pre)). rewrite phasesOf_completed. simpl.
    intros [Hin|Hin]%elem_of_app; [done|].
    by apply list_elem_of_singleton in Hin.
  - intros graph options context Hconfig Hphases. by eapply shipIt_fails.
Qed.

(** C4. Once the configuration is built, [shipIt] always resolves, to a
    value that holds one boolean: [true] exactly when every phase of the
    list completed, [false] exactly when the runner rejected, whatever the
    error and whichever the phase. *)
Theorem shipIt_boolean_outcome graph (caps : Capabilities World) options context
  config s :
  shipConfig (shipitNx graph caps) options context = Fulfilled config →
  ∃ ok log w',
    shipIt (shipitNx graph caps) options context s
    = (Fulfilled {| success := ok |}, {| world := w'; executed := executed s ++ log |})
    ∧ (ok = true ↔ log = map completed (shipPhases options))
    ∧ (ok = false ↔ ∃ phase, failed phase ∈ log)
    ∧ (ok = false ↔
       ∃ e, (runPhases caps (shipPhases options) config s).1 = Rejected e).
Proof.
  intros Hconfig. rewrite shipIt_unfold, Hconfig. cbn [importedRunPhases shipitNx].
  destruct (runPhases caps (shipPhases options) config s) as [r s'] eqn:Hrun.
  apply runPhases_outcome in Hrun
    as [(-> & _ & Hlog)|(pre & phase & post & w & e & -> & Hphases & _ & _ & Hlog)].
  - exists true, (map completed (shipPhases options)), (world s').
    destruct s' as [w' log']; cbn [world executed] in *. subst log'.
    split; [done|]. split; [done|]. split; (split; [done|]).
    + intros [phase Hin]. by apply failed_not_completed in Hin.
    + by intros [e [=]].
  - exists false, (map completed pre ++ [failed phase]), (world s').
    destruct s' as [w' log']; cbn [world executed] in *. subst log'.
    split; [done|]. split; [|split].
    + split; [done|]. intros Heq. exfalso.
      apply (failed_not_completed phase (shipPhases options)).
      rewrite <- Heq. apply elem_of_app. right. by left.
    + split; [|done]. intros _. exists phase. apply elem_of_app. right. by left.
    + split; [|done]. intros _. by exists e.
Qed.

(** C5, as the code has it.  In a run that reaches VerifyRepo with the
    working state [w], VerifyRepo fails exactly when more warnings are
    detected than [maxWarnings] (or its default) allows or a required
    artifact is missing.  When it fails, [shipIt] resolves to
    [{success: false}] and neither PostProcess nor Push is executed; when it
    does not, [shipIt] resolves to [{success: true}] provided the phases
    after VerifyRepo complete. *)
Theorem verifyRepo_gate graph (caps : Capabilities World) options context config s w :
  shipConfig (shipitNx graph caps) options context = Fulfilled config →
  Completes caps config [ClonePhase; CorruptionCheckPhase; CleanPhase; SyncPhase]
    (world s) w →
  (policyViolated caps config w = true ↔
     (default (defaultMaxWarnings caps) (maxWarnings options)
        < warnings (inspect caps w))%Z
     ∨ missingRequired (inspect caps w) = true)
  ∧ ((verifyRepo caps config w).1 ≠ None ↔ policyViolated caps config w = true)
  ∧ (policyViolated caps config w = true →
       shipIt (shipitNx graph caps) options context s
       = (Fulfilled {| success := false |},
          {| world := w;
             executed := executed s ++
               map completed [ClonePhase; CorruptionCheckPhase; CleanPhase; SyncPhase]
               ++ [failed VerifyRepoPhase] |}))
  ∧ (policyViolated caps config w = false →
       ∀ w', Completes caps config (drop 5 (shipPhases options)) w w' →
       shipIt (shipitNx graph caps) options context s
       = (Fulfilled {| success := true |},
          {| world := w';
             executed := executed s ++ map completed (shipPhases options) |})).
Proof.
  intros Hconfig Hreach. split; [|split; [|split]].
  - unfold policyViolated.
    rewrite (maxWarningsOf_shipConfig graph caps options context config) by done.
    rewrite orb_true_iff, Z.ltb_lt. done.
  - unfold verifyRepo. destruct (policyViolated caps config w); simpl; split; done.
  - intros Hviolated.
    apply (shipIt_fails graph caps options context config
             [ClonePhase; CorruptionCheckPhase; CleanPhase; SyncPhase] VerifyRepoPhase
             (drop 5 (shipPhases options)) s w (PolicyError "VerifyRepo") w);
      [done|done|done|].
    simpl. unfold verifyRepo. by rewrite Hviolated.
  - intros Hpassed w' Hrest.
    apply (shipIt_completes graph caps options context config); [done|].
    change (shipPhases options)
      with ([ClonePhase; CorruptionCheckPhase; CleanPhase; SyncPhase]
            ++ VerifyRepoPhase :: drop 5 (shipPhases options)).
    eapply Completes_app; [done|]. econstructor; [|done].
    simpl. unfold verifyRepo. by rewrite Hpassed.
Qed.

End ShipClaims.

(** ** The configuration and the errors before the pipeline *)

Section ConfigClaims.

Context {World : Type}.

Lemma singleProjectFields_inv (im : Imports World) projectGraph context fields :
  singleProjectFields im projectGraph context = Fulfilled fields →
  (∃ name dependencies dependents names,
     namesProject context name
     ∧ importedFindDependencies im projectGraph name = Fulfilled dependencies
     ∧ importedFindDependents im projectGraph name = Fulfilled dependents
     ∧ importedFindProjectNames im (projects (workspace context)) = Fulfilled names
     ∧ fields
       = <["project" := VString name]>
         (<["projectRoot" :=
              optionalString
                (ProjectConfiguration.root <$> projects (workspace context) !! name)]>
         (<["dependencies" := VStrings dependencies]>
         (<["dependents" := VStrings dependents]>
         (<["workspace" := VStrings names]> ∅)))))
  ∨ ((∀ name, ¬ namesProject context name) ∧ fields = ∅).
Proof.
  unfold singleProjectFields, namesProject. intros Hfields.
  destruct (projectName context) as [name|]; cycle 1.
  { right. injection Hfields as <-. split; [|done]. by intros name [[=] _]. }
  simpl in Hfields.
  destruct (decide (name = "")) as [->|Hempty].
  { right. injection Hfields as <-. split; [|done]. intros name [[= <-] [? _]]. done. }
  destruct (decide (name = "workspace")) as [->|Hsentinel].
  { right. injection Hfields as <-. split; [|done]. intros name [[= <-] [_ ?]]. done. }
  rewrite !bool_decide_eq_true_2 in Hfields by done. simpl in Hfields.
  destruct (importedFindDependencies im projectGraph name) as [dependencies|] eqn:Hdeps;
    simpl in Hfields; [|done].
  destruct (importedFindDependents im projectGraph name) as [dependents|] eqn:Hdents;
    simpl in Hfields; [|done].
  destruct (importedFindProjectNames im (projects (workspace context))) as [names|]
    eqn:Hnames;
    simpl in Hfields; [|done].
  injection Hfields as <-. left.
  exists name, dependencies, dependents, names. by repeat split.
Qed.

Lemma options_not_single key :
  key ∈ singleProjectKeys →
  ∀ (options : ShipExecutorOptions) (context : ExecutorContext),
  (<["sourcePath" := VString (root context)]>
   (<["maxWarnings" := optionalNumber (maxWarnings options)]>
   (<["destinationRepoURL" := VString (repo options)]>
   (<["destinationBranch" := VString (branch options)]>
      (∅ : gmap string Value))))) !! key = None.
Proof.
  unfold singleProjectKeys. intros Hkey options context.
  repeat (apply elem_of_cons in Hkey as [->|Hkey]; [done|]).
  by apply elem_of_nil in Hkey.
Qed.

(** C6. In the object handed to the [ShipConfig] constructor, the keys
    [project], [projectRoot], [dependencies], [dependents] and [workspace]
    are present exactly when the context names a project (a non-empty
    [projectName]) other than ['workspace'].  They then hold the name, the
    root recorded for it in [workspace.projects] ([undefined] when none is
    recorded) and what the three resolver utilities returned; otherwise the
    five keys are absent, not bound to empty collections. *)
Theorem singleProject_fields (im : Imports World) projectGraph options context props :
  shipConfigProps im projectGraph options context = Fulfilled props →
  (∀ key, key ∈ singleProjectKeys →
     is_Some (props !! key) ↔ ∃ name, namesProject context name)
  ∧ (∀ name, namesProject context name →
       ∃ dependencies dependents names,
         importedFindDependencies im projectGraph name = Fulfilled dependencies
         ∧ importedFindDependents im projectGraph name = Fulfilled dependents
         ∧ importedFindProjectNames im (projects (workspace context)) = Fulfilled names
         ∧ props !! "project" = Some (VString name)
         ∧ props !! "projectRoot"
           = Some (optionalString
                     (ProjectConfiguration.root <$> projects (workspace context) !! name))
         ∧ props !! "dependencies" = Some (VStrings dependencies)
         ∧ props !! "dependents" = Some (VStrings dependents)
         ∧ props !! "workspace" = Some (VStrings names))
  ∧ ((∀ name, ¬ namesProject context name) →
       ∀ key, key ∈ singleProjectKeys → props !! key = None).
Proof.
  intros Hprops. apply shipConfigProps_inv in Hprops as (fields & Hfields & ->).
  assert (∀ key, key ∈ singleProjectKeys →
    (fields ∪
       (<["sourcePath" := VString (root context)]>
       (<["maxWarnings" := optionalNumber (maxWarnings options)]>
       (<["destinationRepoURL" := VString (repo options)]>
       (<["destinationBranch" := VString (branch options)]> ∅))))) !! key
    = fields !! key) as Hkeys.
  { intros key Hkey. by rewrite lookup_union_l by by apply options_not_single. }
  apply singleProjectFields_inv in Hfields
    as [(name & dependencies & dependents & names & Hname & Hdeps & Hdents & Hnames & ->)
       |[Hnone ->]].
  - split; [|split].
    + intros key Hkey. rewrite (Hkeys key Hkey). split; [by exists name|]. intros _.
      unfold singleProjectKeys in Hkey.
      repeat (apply elem_of_cons in Hkey as [->|Hkey]; [by eexists|]).
      by apply elem_of_nil in Hkey.
    + intros name' [Hname' _]. destruct Hname as [Hname _].
      rewrite Hname in Hname'. injection Hname' as <-.
      exists dependencies, dependents, names.
      unfold singleProjectKeys in Hkeys.
      rewrite !Hkeys by (repeat constructor). by repeat split.
    + intros Hnone. by destruct (Hnone name).
  - split; [|split].
    + intros key Hkey. rewrite (Hkeys key Hkey), lookup_empty. split.
      * by intros [? [=]].
      * intros [name Hname]. by destruct (Hnone name).
    + intros name Hname. by destruct (Hnone name).
    + intros _ key Hkey. by rewrite (Hkeys key Hkey), lookup_empty.
Qed.

(** C9. When the context names a project that is not in the project graph,
    [shipIt] over the repository's imports rejects with a resolution error
    and leaves the run state as it was: no phase, not even Clone, is
    executed. *)
Theorem shipIt_project_not_found (caps : Capabilities World) graph options context
  name s :
  namesProject context name →
  name ∉ dom graph →
  shipIt (shipitNx (Fulfilled graph) caps) options context s
  = (Rejected (ResolutionError name), s).
Proof.
  intros (Hname & Hempty & Hsentinel) Hmissing. rewrite shipIt_unfold.
  unfold shipConfig, shipConfigProps, singleProjectFields. simpl.
  rewrite Hname. simpl. rewrite !bool_decide_eq_true_2 by done. simpl.
  unfold findDependencies, resolve. by rewrite bool_decide_eq_false_2 by done.
Qed.

(** C10. A rejection that arises before [runPhases] is called, in the graph
    provider, in a resolver utility or in the [ShipConfig] constructor, is
    the rejection of [shipIt] itself, with the run state untouched; [shipIt]
    resolves to [{success: false}] only when the configuration was built and
    [runPhases] rejected. *)
Theorem shipIt_rejects_before_pipeline (im : Imports World) options context s :
  (∀ e, createProjectGraphAsync im = Rejected e →
     shipIt im options context s = (Rejected e, s))
  ∧ (∀ projectGraph name e,
       createProjectGraphAsync im = Fulfilled projectGraph →
       namesProject context name →
       importedFindDependencies im projectGraph name = Rejected e
       ∨ (∃ dependencies,
            importedFindDependencies im projectGraph name = Fulfilled dependencies
            ∧ importedFindDependents im projectGraph name = Rejected e) →
       shipIt im options context s = (Rejected e, s))
  ∧ (∀ projectGraph props e,
       createProjectGraphAsync im = Fulfilled projectGraph →
       shipConfigProps im projectGraph options context = Fulfilled props →
       importedShipConfig im props = Rejected e →
       shipIt im options context s = (Rejected e, s))
  ∧ (∀ e, shipConfig im options context = Rejected e →
       shipIt im options context s = (Rejected e, s))
  ∧ (∀ result s',
       shipIt im options context s = (Fulfilled result, s') →
       ∃ config,
         shipConfig im options context = Fulfilled config
         ∧ (success result = false ↔
            ∃ e, (importedRunPhases im (shipPhases options) config s).1 = Rejected e)).
Proof.
  assert (∀ e, shipConfig im options context = Rejected e →
            shipIt im options context s = (Rejected e, s)) as Hearly.
  { intros e Hconfig. by rewrite shipIt_unfold, Hconfig. }
  split; [|split; [|split; [|split]]].
  - intros e Hgraph. apply Hearly. unfold shipConfig. by rewrite Hgraph.
  - intros projectGraph name e Hgraph (Hname & Hempty & Hsentinel) Hresolver.
    apply Hearly. unfold shipConfig, shipConfigProps, singleProjectFields.
    rewrite Hgraph. simpl. rewrite Hname. simpl.
    rewrite !bool_decide_eq_true_2 by done. simpl.
    destruct Hresolver as [->|(dependencies & -> & ->)]; done.
  - intros projectGraph props e Hgraph Hprops Hctor.
    apply Hearly. unfold shipConfig. rewrite Hgraph. simpl. by rewrite Hprops.
  - done.
  - intros result s' Hrun. rewrite shipIt_unfold in Hrun.
    destruct (shipConfig im options context) as [config|e]; [|done].
    exists config. split; [done|].
    destruct (importedRunPhases im (shipPhases options) config s) as [[[]|e] s''];
      injection Hrun as <- <-; simpl; split; try done.
    + by intros [e [=]].
    + intros _. by exists e.
Qed.

End ConfigClaims.

(** ** The claims on concrete runs *)

Import Examples.

Lemma shipIt_standard_run_witness :
  shipIt (shipitNx (Fulfilled chain) steady) (shipTo (Some 1%Z) None) (invoke None)
    (fresh 1%Z)
  = (Fulfilled {| success := true |},
     {| world := 1%Z;
        executed :=
          [(ClonePhase, true); (CorruptionCheckPhase, true); (CleanPhase, true);
           (SyncPhase, true); (VerifyRepoPhase, true); (PostProcessPhase, true);
           (PushPhase, true)] |}).
Proof.
  refine (shipIt_standard_run (Fulfilled chain) steady (shipTo (Some 1%Z) None)
            (invoke None) _ (fresh 1%Z) 1%Z eq_refl eq_refl _).
  repeat (econstructor; [vm_compute; reflexivity|]). constructor.
Defined.

Lemma shipIt_dry_run_witness :
  shipPhases (shipTo None (Some true))
  = [ClonePhase; CorruptionCheckPhase; CleanPhase; SyncPhase; VerifyRepoPhase;
     PostProcessPhase]
  ∧ shipIt (shipitNx (Fulfilled chain) steady) (shipTo None (Some true)) (invoke None)
      (fresh 0%Z)
    = (Fulfilled {| success := true |},
       {| world := 0%Z;
          executed :=
            [(ClonePhase, true); (CorruptionCheckPhase, true); (CleanPhase, true);
             (SyncPhase, true); (VerifyRepoPhase, true); (PostProcessPhase, true)] |}).
Proof.
  destruct (shipIt_dry_run (Fulfilled chain) steady (shipTo None (Some true))
              (invoke None) (fresh 0%Z) eq_refl) as (Hsix & _ & Hrun & _).
  split; [exact Hsix|].
  refine (Hrun _ 0%Z eq_refl _).
  repeat (econstructor; [vm_compute; reflexivity|]). constructor.
Defined.

Lemma runPhases_fail_fast_witness :
  shipIt (shipitNx (Fulfilled chain) corrupted) (shipTo None None) (invoke None)
    (fresh 0%Z)
  = (Fulfilled {| success := false |},
     {| world := 0%Z;
        executed := [(ClonePhase, true); (CorruptionCheckPhase, false)] |}).
Proof.
  destruct (runPhases_fail_fast corrupted
              {| settings :=
                   ∅ ∪ (<["sourcePath" := VString "/monorepo"]>
                       (<["maxWarnings" := VUndefined]>
                       (<["destinationRepoURL" := VString "git@example.org:ship/target.git"]>
                       (<["destinationBranch" := VString "main"]> ∅)))) |}
              [ClonePhase] CorruptionCheckPhase
              [CleanPhase; SyncPhase; VerifyRepoPhase; PostProcessPhase; PushPhase]
              (fresh 0%Z) 0%Z (IntegrityError "corrupted history") 0%Z)
    as (_ & _ & Hship).
  - econstructor; [reflexivity|constructor].
  - reflexivity.
  - exact (Hship (Fulfilled chain) (shipTo None None) (invoke None) eq_refl eq_refl).
Defined.

Lemma shipIt_boolean_outcome_witness :
  ∃ ok log w',
    shipIt (shipitNx (Fulfilled chain) stuck) (shipTo None None) (invoke None) (fresh 0%Z)
    = (Fulfilled {| success := ok |}, {| world := w'; executed := [] ++ log |})
    ∧ (ok = true ↔ log = map completed (shipPhases (shipTo None None)))
    ∧ (ok = false ↔ ∃ phase, failed phase ∈ log)
    ∧ (ok = false ↔
       ∃ e, (runPhases stuck (shipPhases (shipTo None None))
               {| settings :=
                    ∅ ∪ (<["sourcePath" := VString "/monorepo"]>
                        (<["maxWarnings" := VUndefined]>
                        (<["destinationRepoURL" :=
                             VString "git@example.org:ship/target.git"]>
                        (<["destinationBranch" := VString "main"]> ∅)))) |}
               (fresh 0%Z)).1 = Rejected e).
Proof.
  exact (shipIt_boolean_outcome (Fulfilled chain) stuck (shipTo None None) (invoke None)
           _ (fresh 0%Z) eq_refl).
Defined.

(** C5 as worded fails: with [maxWarnings = 1] and one warning VerifyRepo
    detects no violation, yet PostProcess fails, so the run fails and Push is
    never executed. *)
Lemma verifyRepo_iff_counterexample :
  shipIt (shipitNx (Fulfilled chain) stuck) (shipTo (Some 1%Z) None) (invoke None)
    (fresh 1%Z)
  = (Fulfilled {| success := false |},
     {| world := 1%Z;
        executed :=
          [(ClonePhase, true); (CorruptionCheckPhase, true); (CleanPhase, true);
           (SyncPhase, true); (VerifyRepoPhase, true); (PostProcessPhase, false)] |})
  ∧ ¬ (((shipIt (shipitNx (Fulfilled chain) stuck) (shipTo (Some 1%Z) None)
           (invoke None) (fresh 1%Z)).1 = Fulfilled {| success := false |}
        ∧ PushPhase ∉
            phasesOf (executed
              (shipIt (shipitNx (Fulfilled chain) stuck) (shipTo (Some 1%Z) None)
                 (invoke None) (fresh 1%Z)).2))
       ↔ ((1 < warnings (inspect stuck 1%Z))%Z ∨ missingRequired (inspect stuck 1%Z) = true)).
Proof.
  split; [vm_compute; reflexivity|].
  intros [Hfails _].
  destruct Hfails as [Hwarn|Hmissing].
  - split; [vm_compute; reflexivity|].
    vm_compute. intros Hin.
    repeat (apply elem_of_cons in Hin as [Hin|Hin]; [discriminate|]).
    by apply elem_of_nil in Hin.
  - simpl in Hwarn. lia.
  - simpl in Hmissing. discriminate.
Qed.

Lemma verifyRepo_gate_witness :
  shipIt (shipitNx (Fulfilled chain) steady) (shipTo (Some 0%Z) None) (invoke None)
    (fresh 1%Z)
  = (Fulfilled {| success := false |},
     {| world := 1%Z;
        executed :=
          [(ClonePhase, true); (CorruptionCheckPhase, true); (CleanPhase, true);
           (SyncPhase, true); (VerifyRepoPhase, false)] |})
  ∧ shipIt (shipitNx (Fulfilled chain) steady) (shipTo (Some 1%Z) None) (invoke None)
      (fresh 1%Z)
    = (Fulfilled {| success := true |},
       {| world := 1%Z;
          executed :=
            [(ClonePhase, true); (CorruptionCheckPhase, true); (CleanPhase, true);
             (SyncPhase, true); (VerifyRepoPhase, true); (PostProcessPhase, true);
             (PushPhase, true)] |}).
Proof.
  split.
  - destruct (verifyRepo_gate (Fulfilled chain) steady (shipTo (Some 0%Z) None)
                (invoke None) _ (fresh 1%Z) 1%Z eq_refl) as (_ & _ & Hfails & _).
    + repeat (econstructor; [vm_compute; reflexivity|]). constructor.
    + apply Hfails. vm_compute. reflexivity.
  - destruct (verifyRepo_gate (Fulfilled chain) steady (shipTo (Some 1%Z) None)
                (invoke None) _ (fresh 1%Z) 1%Z eq_refl) as (_ & _ & _ & Hpasses).
    + repeat (econstructor; [vm_compute; reflexivity|]). constructor.
    + apply (Hpasses eq_refl 1%Z).
      repeat (econstructor; [vm_compute; reflexivity|]). constructor.
Defined.

Lemma singleProject_fields_witness :
  ∃ props,
    shipConfigProps (shipitNx (Fulfilled chain) steady) chain (shipTo None None)
      (invoke (Some "A")) = Fulfilled props
    ∧ props !! "project" = Some (VString "A")
    ∧ props !! "projectRoot" = Some (VString "libs/a")
    ∧ props !! "dependencies" = Some (VStrings ["B"; "C"])
    ∧ props !! "dependents" = Some (VStrings []).
Proof.
  eexists. split; [reflexivity|].
  destruct (singleProject_fields (shipitNx (Fulfilled chain) steady) chain
              (shipTo None None) (invoke (Some "A")) _ eq_refl) as (_ & Hnamed & _).
  destruct (Hnamed "A") as (ds & dn & ns & Hds & Hdn & _ & Hp & Hr & Hd & Hn & _).
  - split; [reflexivity|]. split; discriminate.
  - vm_compute in Hds. vm_compute in Hdn.
    injection Hds as <-. injection Hdn as <-.
    repeat split; assumption.
Defined.

Lemma shipIt_project_not_found_witness :
  shipIt (shipitNx (Fulfilled chain) steady) (shipTo None None) (invoke (Some "Z"))
    (fresh 0%Z)
  = (Rejected (ResolutionError "Z"), fresh 0%Z).
Proof.
  apply (shipIt_project_not_found steady chain (shipTo None None) (invoke (Some "Z"))
           "Z" (fresh 0%Z)).
  - split; [reflexivity|]. split; discriminate.
  - apply not_elem_of_dom. reflexivity.
Defined.

Lemma shipIt_rejects_before_pipeline_witness :
  shipIt (shipitNx (Rejected (OtherError "no project graph")) steady) (shipTo None None)
    (invoke None) (fresh 0%Z)
  = (Rejected (OtherError "no project graph"), fresh 0%Z).
Proof.
  apply (proj1 (shipIt_rejects_before_pipeline
                  (shipitNx (Rejected (OtherError "no project graph")) steady)
                  (shipTo None None) (invoke None) (fresh 0%Z))).
  reflexivity.
Defined.

(** ** Mapping over asynchronous results *)

Module MapAsyncFacts.

Import MapAsync.

(** X1. Mapping with a function that returns its argument changes nothing:
    the promise settles as the input did, for [mapOkAsync] and for
    [mapFailureAsync]. *)
Theorem map_async_identity {A E : Type} (input : Settled (Result A E)) :
  mapOkAsync (λ a, Fulfilled a) input = input
  ∧ mapFailureAsync (λ e, Fulfilled e) input = input.
Proof. by destruct input as [[a|e]|r]. Qed.

(** X2. Two [mapOkAsync] in a row are one [mapOkAsync] with the two
    functions chained, also when either function rejects. *)
Theorem mapOkAsync_compose {A B C E : Type} (f : A → Settled B) (g : B → Settled C)
  (input : Settled (Result A E)) :
  mapOkAsync g (mapOkAsync f input) = mapOkAsync (λ a, await (f a) g) input.
Proof.
  destruct input as [[a|e]|r]; [|done|done].
  unfold mapOkAsync. simpl. by destruct (f a) as [b|r].
Qed.

(** X3. Two [mapFailureAsync] in a row are one [mapFailureAsync] with the
    two functions chained, also when either function rejects. *)
Theorem mapFailureAsync_compose {A E F G : Type} (f : E → Settled F)
  (g : F → Settled G) (input : Settled (Result A E)) :
  mapFailureAsync g (mapFailureAsync f input)
  = mapFailureAsync (λ e, await (f e) g) input.
Proof.
  destruct input as [[a|e]|r]; [done| |done].
  unfold mapFailureAsync. simpl. by destruct (f e) as [b|r].
Qed.

(** X4. [mapOkAsync] and [mapFailureAsync] commute: the order in which the
    two are applied to an input does not matter, whatever the two functions
    do. *)
Theorem map_async_commute {A B E F : Type} (f : A → Settled B) (g : E → Settled F)
  (input : Settled (Result A E)) :
  mapOkAsync f (mapFailureAsync g input) = mapFailureAsync g (mapOkAsync f input).
Proof.
  destruct input as [[a|e]|r]; [| |done]; unfold mapOkAsync, mapFailureAsync; simpl.
  - by destruct (f a).
  - by destruct (g e).
Qed.

(** X5. Neither function changes the side of a result: [mapOkAsync] yields a
    failure exactly when its input is that failure, and [mapFailureAsync]
    yields an ok value exactly when its input is that ok value.  A function
    that rejects never produces a result of the other side. *)
Theorem map_async_keeps_side {A B E F : Type} (f : A → Settled B) (g : E → Settled F)
  (input : Settled (Result A E)) :
  (∀ e, mapOkAsync f input = Fulfilled (Failure e) ↔ input = Fulfilled (Failure e))
  ∧ (∀ a, mapFailureAsync g input = Fulfilled (Ok a) ↔ input = Fulfilled (Ok a)).
Proof.
  split.
  - intros e'. destruct input as [[a|e]|r]; unfold mapOkAsync; simpl.
    + destruct (f a); simpl; split; intros [=].
    + split; intros [= ->]; done.
    + split; intros [=].
  - intros a'. destruct input as [[a|e]|r]; unfold mapFailureAsync; simpl.
    + split; intros [= ->]; done.
    + destruct (g e); simpl; split; intros [=].
    + split; intros [=].
Qed.

(** X6. The promise of [mapOkAsync] rejects exactly when the input rejects,
    with the same reason, or when the input is an ok value on which the
    function rejects; the rejection of the function is not turned into a
    failure.  The same holds for [mapFailureAsync] and failures. *)
Theorem map_async_rejects {A B E F : Type} (f : A → Settled B) (g : E → Settled F)
  (input : Settled (Result A E)) (reason : Error) :
  (mapOkAsync f input = Rejected reason ↔
     input = Rejected reason ∨ ∃ a, input = Fulfilled (Ok a) ∧ f a = Rejected reason)
  ∧ (mapFailureAsync g input = Rejected reason ↔
       input = Rejected reason
       ∨ ∃ e, input = Fulfilled (Failure e) ∧ g e = Rejected reason).
Proof.
  split.
  - destruct input as [[a|e]|r]; unfold mapOkAsync; simpl.
    + destruct (f a) as [b|r] eqn:Hf; simpl; split.
      * intros [=].
      * intros [[=]|(a' & [= <-] & Hr)]. congruence.
      * intros [= ->]. right. by exists a.
      * intros [[=]|(a' & [= <-] & Hr)]. congruence.
    + split; [intros [=]|intros [[=]|(a' & [=] & _)]].
    + split; [intros [= ->]; by left|intros [[= ->]|(a' & [=] & _)]; done].
  - destruct input as [[a|e]|r]; unfold mapFailureAsync; simpl.
    + split; [intros [=]|intros [[=]|(e' & [=] & _)]].
    + destruct (g e) as [b|r] eqn:Hg; simpl; split.
      * intros [=].
      * intros [[=]|(e' & [= <-] & Hr)]. congruence.
      * intros [= ->]. right. by exists e.
      * intros [[=]|(e' & [= <-] & Hr)]. congruence.
    + split; [intros [= ->]; by left|intros [[= ->]|(e' & [=] & _)]; done].
Qed.

End MapAsyncFacts.

(** ** The tabbed container *)

Module TabbedContainerFacts.

Import TabbedContainer.

Section Facts.

Context {Element Node : Type}.

Lemma at_Some {A : Type} (l : list A) (index : Z) (x : A) :
  at_ l index = Some x ↔ ∃ k, index = Z.of_nat k ∧ l !! k = Some x.
Proof.
  unfold at_. case_bool_decide as Hsign; split.
  - intros Hx. exists (Z.to_nat index). split; [lia|done].
  - intros (k & -> & Hk). by rewrite Nat2Z.id.
  - intros [=].
  - intros (k & -> & _). lia.
Qed.

Lemma at_None {A : Type} (l : list A) (index : Z) :
  at_ l index = None ↔ ¬ (0 ≤ index < Z.of_nat (length l))%Z.
Proof.
  unfold at_. case_bool_decide as Hsign.
  - rewrite lookup_ge_None. lia.
  - split; [lia|done].
Qed.

(** X7. The tab bar has one touchable per tab, in order.  The touchable of
    the selected index shows the [activeTab] element of its tab and the
    content below the bar is the content of that tab; every other touchable
    shows the [tab] element.  No content is rendered exactly when the
    selected index is outside the list of tabs. *)
Theorem render_shows_selected (props : TabbedContainerProps Element Node)
  (c : Container) :
  length (tabBar (render props c)) = length (tabs props)
  ∧ (∀ k touchable,
       tabBar (render props c) !! k = Some touchable →
       ∃ tab_,
         tabs props !! k = Some tab_
         ∧ key touchable = k
         ∧ onPress touchable = Z.of_nat k
         ∧ ((selectedIndex c = Z.of_nat k
             ∧ shown touchable = activeTab tab_
             ∧ content (render props c) = Some (renderContent tab_ ()))
            ∨ (selectedIndex c ≠ Z.of_nat k ∧ shown touchable = tab tab_)))
  ∧ (content (render props c) = None ↔
       ¬ (0 ≤ selectedIndex c < Z.of_nat (length (tabs props)))%Z).
Proof.
  unfold render, renderTabs. simpl. split; [by rewrite length_imap|]. split.
  - intros k touchable Hk. rewrite list_lookup_imap in Hk.
    destruct (tabs props !! k) as [tab_|] eqn:Htab; simpl in Hk; [|done].
    injection Hk as <-. exists tab_. simpl. split; [done|]. split; [done|].
    split; [done|]. case_bool_decide as Hsel.
    + left. split; [done|]. split; [done|].
      assert (at_ (tabs props) (selectedIndex c) = Some tab_) as ->; [|done].
      apply at_Some. by exists k.
    + right. done.
  - rewrite fmap_None. apply at_None.
Qed.

(** X8. Pressing the touchable at a position of the tab bar selects that
    tab: the next rendering shows the content of the tab at that position,
    and [onTabSwitch], when given, is called with the position, also when
    the tab was selected already. *)
Theorem press_selects (props : TabbedContainerProps Element Node) (c : Container)
  (position : nat) (tab_ : Tab Element Node) :
  tabs props !! position = Some tab_ →
  selectedIndex (press props position c) = Z.of_nat position
  ∧ content (render props (press props position c)) = Some (renderContent tab_ ())
  ∧ switches (press props position c)
    = switches c ++ (if onTabSwitch props then [Z.of_nat position] else []).
Proof.
  intros Htab. unfold press, renderTabs. rewrite list_lookup_imap, Htab. simpl.
  split; [done|]. split; [|done].
  unfold render. simpl.
  assert (at_ (tabs props) (Z.of_nat position) = Some tab_) as ->; [|done].
  apply at_Some. by exists position.
Qed.

End Facts.

Lemma press_selects_witness :
  selectedIndex (press threeTabs 2 (mount threeTabs)) = 2%Z
  ∧ content (render threeTabs (press threeTabs 2 (mount threeTabs))) = Some "third"
  ∧ switches (press threeTabs 2 (mount threeTabs)) = [2%Z].
Proof.
  apply (press_selects threeTabs (mount threeTabs) 2
           {| tab := "three"; activeTab := "THREE"; renderContent := λ _, "third" |}).
  reflexivity.
Defined.

End TabbedContainerFacts.

(** ** The image placeholder *)

Module ImagePlaceholderFacts.

Import ImagePlaceholder.

(** X9. The placeholder is the bare image exactly when there is neither an
    [onPress] handler nor a non-empty [href].  Otherwise it is touchable and
    a press does exactly one thing: it calls [onPress] with the [href] when
    the handler is given, and the navigator is then not opened even if an
    [href] is set; without a handler it opens the [href] in the navigator. *)
Theorem placeholder_press (props : SerializableImageProps) :
  (SerializableImagePlaceholder props = Image ↔
     onPress props = false ∧ truthy (href props) = false)
  ∧ (∀ effects,
       SerializableImagePlaceholder props = TouchableImage effects →
       (onPress props = true ∧ effects = [OnPress (href props)])
       ∨ (onPress props = false
          ∧ ∃ target,
              href props = Some target ∧ target ≠ "" ∧ effects = [NavigatorOpen target])).
Proof.
  unfold SerializableImagePlaceholder, handlePress.
  destruct props as [handler target]; simpl.
  destruct (truthy target) eqn:Htruthy; destruct handler; simpl.
  - split; [split; [done|by intros [[=] _]]|]. intros effects [= <-]. by left.
  - split; [split; [done|by intros [_ [=]]]|]. intros effects [= <-]. right.
    split; [done|]. destruct target as [target|]; [|done].
    exists target. split; [done|]. split; [|done].
    simpl in Htruthy. by apply bool_decide_eq_true in Htruthy.
  - split; [split; [done|by intros [[=] _]]|]. intros effects [= <-]. by left.
  - split; [done|]. intros effects [=].
Qed.

End ImagePlaceholderFacts.

(** ** The constructor argument of [ShipConfig], whatever the imports *)

Section ShipConfigProps.

Context {World : Type}.

(** X10. The object handed to the [ShipConfig] constructor always binds
    [sourcePath], [maxWarnings], [destinationRepoURL] and
    [destinationBranch] to the context root and to the options; the spread
    fields never replace them.  It has no key besides these four and the
    five single-project keys; in particular [dryRun] is not handed over. *)
Theorem shipConfigProps_option_fields (im : Imports World) projectGraph options context
  props :
  shipConfigProps im projectGraph options context = Fulfilled props →
  props !! "sourcePath" = Some (VString (root context))
  ∧ props !! "maxWarnings" = Some (optionalNumber (maxWarnings options))
  ∧ props !! "destinationRepoURL" = Some (VString (repo options))
  ∧ props !! "destinationBranch" = Some (VString (branch options))
  ∧ props !! "dryRun" = None
  ∧ (∀ key, is_Some (props !! key) →
       key ∈ ["sourcePath"; "maxWarnings"; "destinationRepoURL"; "destinationBranch"]
             ++ singleProjectKeys).
Proof.
  intros Hprops. apply shipConfigProps_inv in Hprops as (fields & Hfields & ->).
  pose proof (singleProjectFields_keys im projectGraph context fields Hfields) as Hkeys.
  assert (∀ key, key ∉ singleProjectKeys → fields !! key = None) as Hfree.
  { intros key Hkey. destruct (fields !! key) eqn:Hlook; [|done].
    destruct Hkey. apply Hkeys. by eexists. }
  assert (∀ key, key ∈ ["sourcePath"; "maxWarnings"; "destinationRepoURL";
                        "destinationBranch"; "dryRun"] →
            key ∉ singleProjectKeys) as Hfour.
  { unfold singleProjectKeys. intros key Hkey Hin.
    repeat (apply elem_of_cons in Hkey as [->|Hkey];
            [repeat (apply elem_of_cons in Hin as [Hin|Hin]; [discriminate|]);
             by apply elem_of_nil in Hin|]).
    by apply elem_of_nil in Hkey. }
  repeat split.
  - rewrite lookup_union_r by (apply Hfree, Hfour; repeat constructor). done.
  - rewrite lookup_union_r by (apply Hfree, Hfour; repeat constructor). done.
  - rewrite lookup_union_r by (apply Hfree, Hfour; repeat constructor). done.
  - rewrite lookup_union_r by (apply Hfree, Hfour; repeat constructor). done.
  - rewrite lookup_union_r by (apply Hfree, Hfour; repeat constructor). done.
  - intros key [value Hvalue]. apply lookup_union_Some_raw in Hvalue as [Hin|[_ Hin]].
    + apply elem_of_app. right. apply Hkeys. by eexists.
    + apply elem_of_app. left.
      repeat (rewrite lookup_insert in Hin; case_decide;
              [subst key; by repeat constructor|]).
      by rewrite lookup_empty in Hin.
Qed.

(** X11. When the context names no single project (no [projectName], an
    empty one, or ['workspace']) the resolver utilities are not consulted:
    whatever they would return, the constructor argument is built and is
    exactly the four option fields. *)
Theorem shipConfigProps_whole_workspace (im : Imports World) projectGraph options
  context :
  (∀ name, ¬ namesProject context name) →
  shipConfigProps im projectGraph options context
  = Fulfilled
      (<["sourcePath" := VString (root context)]>
      (<["maxWarnings" := optionalNumber (maxWarnings options)]>
      (<["destinationRepoURL" := VString (repo options)]>
      (<["destinationBranch" := VString (branch options)]> ∅)))).
Proof.
  intros Hnone. unfold shipConfigProps.
  assert (singleProjectFields im projectGraph context = Fulfilled ∅) as ->.
  { unfold singleProjectFields, namesProject in *.
    destruct (projectName context) as [name|]; [|done]. simpl.
    destruct (decide (name = "")) as [->|Hempty]; [done|].
    destruct (decide (name = "workspace")) as [->|Hsentinel]; [done|].
    by destruct (Hnone name). }
  simpl. by rewrite (left_id_L ∅ (∪)).
Qed.

End ShipConfigProps.

Lemma shipConfigProps_option_fields_witness :
  ∃ props,
    shipConfigProps (shipitNx (Fulfilled Examples.chain) Examples.steady) Examples.chain
      (Examples.shipTo (Some 3%Z) (Some true)) (Examples.invoke (Some "A"))
    = Fulfilled props
    ∧ props !! "maxWarnings" = Some (VNumber 3)
    ∧ props !! "dryRun" = None.
Proof.
  eexists. split; [reflexivity|].
  destruct (shipConfigProps_option_fields
              (shipitNx (Fulfilled Examples.chain) Examples.steady) Examples.chain
              (Examples.shipTo (Some 3%Z) (Some true)) (Examples.invoke (Some "A")) _
              eq_refl) as (_ & Hmax & _ & _ & Hdry & _).
  split; [exact Hmax|exact Hdry].
Defined.

Lemma shipConfigProps_whole_workspace_witness :
  shipConfigProps Outage.unresolvable Examples.chain (Examples.shipTo None None)
    (Examples.invoke (Some "workspace"))
  = Fulfilled
      (<["sourcePath" := VString "/monorepo"]>
      (<["maxWarnings" := VUndefined]>
      (<["destinationRepoURL" := VString "git@example.org:ship/target.git"]>
      (<["destinationBranch" := VString "main"]> ∅)))).
Proof.
  apply (shipConfigProps_whole_workspace Outage.unresolvable Examples.chain
           (Examples.shipTo None None) (Examples.invoke (Some "workspace"))).
  intros name ([= <-] & _ & Hsentinel). by apply Hsentinel.
Defined.

(** ** The commerce data provider *)

Module CommerceFacts.

Import Commerce.

Section Facts.

Context {Product Payload Source Own Query : Type}.

Variable notIterable : Error.
Variable fetchData : Source → Props Source Own Query → Settled (Data Product Payload).
Variable initialData :
  option (Props Source Own Query → option (Data Product Payload)).

(** The properties [loadMore] hands to [fetchData]: those of the provider
    with [productQuery] replaced. *)
Let withQuery (props : Props Source Own Query) (query : Query)
  : Props Source Own Query := {|
  commerceDataSource := commerceDataSource props;
  onDataLoaded := onDataLoaded props;
  onDataError := onDataError props;
  productQuery := Some query;
  own := own props
|}.

Lemma greater_true (a b : option Z) :
  greater a b = true ↔ ∃ x y, a = Some x ∧ b = Some y ∧ (y < x)%Z.
Proof.
  unfold greater. destruct a as [x|], b as [y|].
  - rewrite Z.ltb_lt. split.
    + intros Hlt. by exists x, y.
    + by intros (? & ? & [= <-] & [= <-] & Hlt).
  - split; [done|]. by intros (? & ? & _ & [=] & _).
  - split; [done|]. by intros (? & ? & [=] & _).
  - split; [done|]. by intros (? & ? & [=] & _).
Qed.

Lemma spread_Some (a b : option (list Product)) merged :
  spread a b = Some merged ↔ ∃ x y, a = Some x ∧ b = Some y ∧ merged = x ++ y.
Proof.
  unfold spread. destruct a as [x|], b as [y|].
  - split.
    + intros [= <-]. by exists x, y.
    + by intros (? & ? & [= <-] & [= <-] & ->).
  - split; [done|]. by intros (? & ? & _ & [=] & _).
  - split; [done|]. by intros (? & ? & [=] & _).
  - split; [done|]. by intros (? & ? & [=] & _).
Qed.

(** The fetched page after [minPage] was initialised on the data held and
    copied to it (lines 237-240). *)
Let aligned (current data : Data Product Payload) : Data Product Payload := {|
  page := page data;
  minPage :=
    match minPage current with
    | None => page current
    | Some m => Some m
    end;
  products := products data;
  payload := payload data
|}.

Lemma ranged_aligned (current : Data Product Payload) :
  ranged current → ranged (aligned current current).
Proof.
  unfold ranged, aligned. simpl. intros Hranged m q Hm Hq.
  destruct (minPage current) as [m'|] eqn:Hmin.
  - injection Hm as <-. by apply Hranged.
  - rewrite Hq in Hm. injection Hm as <-. lia.
Qed.


(** X13. [loadMore] keeps the data of a provider that has some, and keeps it
    a range of pages: if [minPage], when set, is not above [page] before the
    call, it is not afterwards.  The products held before are still there,
    at the start or at the end of the new list, and [page] does not
    decrease. *)
Theorem loadMore_keeps_range (props : Props Source Own Query) (query : Query)
  (c : Provider Product Payload) (current : Data Product Payload) :
  commerceData (state c) = Some current →
  ranged current →
  ∃ current',
    commerceData (state (loadMore notIterable fetchData props query c).1) = Some current'
    ∧ ranged current'
    ∧ (∀ old, products current = Some old →
         ∃ new, products current' = Some new
                ∧ (old `prefix_of` new ∨ old `suffix_of` new))
    ∧ (∀ q, page current = Some q → ∃ q', page current' = Some q' ∧ (q ≤ q')%Z).
Proof.
  intros Hcurrent Hranged. unfold loadMore.
  destruct (fetchData (commerceDataSource props) _) as [data|error]; simpl; cycle 1.
  { exists current. split; [done|]. split; [done|]. split.
    - intros old Hold. exists old. split; [done|]. by left.
    - intros q Hq. exists q. split; [done|lia]. }
  pose proof (ranged_aligned current Hranged) as Haligned.
  unfold merge. simpl. rewrite Hcurrent.
  destruct (greater (page data) (page current)) eqn:Hnewer.
  - apply greater_true in Hnewer as (p & q & Hp & Hq & Hpq).
    destruct (spread (products current) (products data)) as [merged|] eqn:Hspread.
    + apply spread_Some in Hspread as (old & new & Hold & Hnew & ->). simpl.
      eexists. split; [reflexivity|]. simpl. split; [|split].
      * unfold ranged. simpl. intros m q' Hm Hq'.
        rewrite Hp in Hq'. injection Hq' as <-.
        pose proof (Haligned m q Hm Hq). lia.
      * intros old' Hold'. rewrite Hold in Hold'. injection Hold' as <-.
        eexists. split; [reflexivity|]. left. by apply prefix_app_r.
      * intros q' Hq'. rewrite Hq in Hq'. injection Hq' as <-.
        exists p. split; [done|lia].
    + simpl. eexists. split; [reflexivity|]. simpl. split; [done|]. split.
      * intros old Hold. exists old. split; [done|]. by left.
      * intros q' Hq'. exists q'. split; [done|lia].
  - destruct (greater (match minPage current with
                       | Some m => Some m
                       | None => page current
                       end) (page data)) eqn:Holder.
    + apply greater_true in Holder as (m & p & Hm & Hp & Hpm).
      destruct (spread (products data) (products current)) as [merged|] eqn:Hspread.
      * apply spread_Some in Hspread as (new & old & Hnew & Hold & ->). simpl.
        eexists. split; [reflexivity|]. simpl. split; [|split].
        -- unfold ranged. simpl. intros m' q Hm' Hq.
           rewrite Hp in Hm'. injection Hm' as <-.
           pose proof (Haligned m q Hm Hq). lia.
        -- intros old' Hold'. rewrite Hold in Hold'. injection Hold' as <-.
           eexists. split; [reflexivity|]. right. by apply suffix_app_r.
        -- intros q Hq. exists q. split; [done|lia].
      * simpl. eexists. split; [reflexivity|]. simpl. split; [done|]. split.
        -- intros old Hold. exists old. split; [done|]. by left.
        -- intros q' Hq'. exists q'. split; [done|lia].
    + simpl. eexists. split; [reflexivity|]. simpl. split; [done|]. split.
      * intros old Hold. exists old. split; [done|]. by left.
      * intros q' Hq'. exists q'. split; [done|lia].
Qed.

(** X14. When [loadMore] fetches a page above the page held, the products
    fetched are appended to the products held; when it fetches a page below
    the lowest page held, they are put in front and [minPage] becomes the
    fetched page while [page] stays.  In both cases the merged object
    becomes the data of the provider, [isLoading] is false, [onDataLoaded]
    is called with it, and it is what the returned promise resolves to. *)
Theorem loadMore_merges (props : Props Source Own Query) (query : Query)
  (c : Provider Product Payload) (current data : Data Product Payload)
  (p q : Z) (old new : list Product) :
  commerceData (state c) = Some current →
  ranged current →
  fetchData (commerceDataSource props) (withQuery props query) = Fulfilled data →
  page data = Some p →
  page current = Some q →
  products data = Some new →
  products current = Some old →
  ((q < p)%Z →
   loadMore notIterable fetchData props query c
   = let merged := {|
       page := Some p;
       minPage := Some (default q (minPage current));
       products := Some (old ++ new);
       payload := payload data
     |} in
     ({| state := {| commerceData := Some merged; isLoading := false |};
         events := events c ++ (if onDataLoaded props then [DataLoaded merged] else []) |},
      Fulfilled merged))
  ∧ ((p < default q (minPage current))%Z →
     loadMore notIterable fetchData props query c
     = let merged := {|
         page := Some q;
         minPage := Some p;
         products := Some (new ++ old);
         payload := payload data
       |} in
       ({| state := {| commerceData := Some merged; isLoading := false |};
           events := events c ++ (if onDataLoaded props then [DataLoaded merged] else []) |},
        Fulfilled merged)).
Proof.
  intros Hcurrent Hranged Hfetch Hp Hq Hnew Hold.
  assert (match minPage current with
          | Some m => Some m
          | None => page current
          end = Some (default q (minPage current))) as Hmin.
  { rewrite Hq. by destruct (minPage current). }
  assert (default q (minPage current) ≤ q)%Z as Hle.
  { destruct (minPage current) as [m|] eqn:Hm; simpl; [|lia]. by apply Hranged. }
  unfold loadMore. fold (withQuery props query). rewrite Hfetch.
  unfold moreSettled, merge. simpl. rewrite Hcurrent, Hmin, Hp, Hq, Hnew, Hold.
  split; intros Hlt; simpl.
  - rewrite (proj2 (Z.ltb_lt q p)) by done. done.
  - rewrite (proj2 (Z.ltb_ge q p)) by lia.
    rewrite (proj2 (Z.ltb_lt p _)) by done. done.
Qed.

(** X15. When no data is held yet, or when the fetched page lies within the
    pages already held, [loadMore] stores nothing: it reports nothing,
    leaves [page] and [products] of the provider as they were, and
    [isLoading], which it set, stays true. *)
Theorem loadMore_leaves_loading (props : Props Source Own Query) (query : Query)
  (c : Provider Product Payload) (data : Data Product Payload) :
  fetchData (commerceDataSource props) (withQuery props query) = Fulfilled data →
  commerceData (state c) = None
  ∨ (∃ current p q,
       commerceData (state c) = Some current
       ∧ page data = Some p
       ∧ page current = Some q
       ∧ (default q (minPage current) ≤ p ≤ q)%Z) →
  isLoading (state (loadMore notIterable fetchData props query c).1) = true
  ∧ events (loadMore notIterable fetchData props query c).1 = events c
  ∧ page <$> commerceData (state (loadMore notIterable fetchData props query c).1)
    = page <$> commerceData (state c)
  ∧ products <$> commerceData (state (loadMore notIterable fetchData props query c).1)
    = products <$> commerceData (state c).
Proof.
  intros Hfetch Hcase. unfold loadMore. fold (withQuery props query). rewrite Hfetch.
  unfold moreSettled, merge. simpl.
  destruct Hcase as [Hnone|(current & p & q & Hcurrent & Hp & Hq & Hm & Hpq)].
  - rewrite Hnone. simpl. by rewrite ?Hnone.
  - rewrite Hcurrent, Hp, Hq. simpl.
    rewrite (proj2 (Z.ltb_ge q p)) by done.
    destruct (minPage current) as [m|]; simpl in *.
    + rewrite (proj2 (Z.ltb_ge p m)) by done. simpl. by rewrite Hq.
    + rewrite (proj2 (Z.ltb_ge p q)) by done. simpl. by rewrite Hq.
Qed.


(** X17. An error thrown while merging does not reach the caller of
    [loadMore]: when a newer page arrives without a list of products, the
    returned promise is still fulfilled, the provider keeps the page and the
    products it had, [isLoading] is false, and the error goes to
    [onDataError], when given, and to the console. *)
Theorem loadMore_merge_error (props : Props Source Own Query) (query : Query)
  (c : Provider Product Payload) (current data : Data Product Payload) (p q : Z) :
  commerceData (state c) = Some current →
  fetchData (commerceDataSource props) (withQuery props query) = Fulfilled data →
  page data = Some p →
  page current = Some q →
  (q < p)%Z →
  products data = None →
  (∃ data', (loadMore notIterable fetchData props query c).2 = Fulfilled data')
  ∧ isLoading (state (loadMore notIterable fetchData props query c).1) = false
  ∧ events (loadMore notIterable fetchData props query c).1
    = events c ++ (if onDataError props then [DataError notIterable] else [])
      ++ [ConsoleError notIterable]
  ∧ page <$> commerceData (state (loadMore notIterable fetchData props query c).1)
    = Some (Some q)
  ∧ products <$> commerceData (state (loadMore notIterable fetchData props query c).1)
    = Some (products current).
Proof.
  intros Hcurrent Hfetch Hp Hq Hlt Hnone.
  unfold loadMore. fold (withQuery props query). rewrite Hfetch.
  unfold moreSettled, merge. simpl. rewrite Hcurrent, Hp, Hq, Hnone. simpl.
  rewrite (proj2 (Z.ltb_lt q p)) by done.
  assert (spread (products current) None = None) as ->
    by (unfold spread; by destruct (products current)).
  simpl. split; [by eexists|]. done.
Qed.


End Facts.

Lemma loadMore_keeps_range_witness :
  ∃ current',
    commerceData (state (loadMore (OtherError "TypeError") catalogue shopper 3%Z
                           onPageTwo).1) = Some current'
    ∧ ranged current'
    ∧ (∀ old, Some ["second"] = Some old →
         ∃ new, products current' = Some new
                ∧ (old `prefix_of` new ∨ old `suffix_of` new))
    ∧ (∀ q, Some 2%Z = Some q → ∃ q', page current' = Some q' ∧ (q ≤ q')%Z).
Proof.
  apply (loadMore_keeps_range (OtherError "TypeError") catalogue shopper 3%Z
           onPageTwo (shelf 2 (Some ["second"])) eq_refl).
  intros m q Hm. discriminate Hm.
Defined.

Lemma loadMore_merges_witness :
  loadMore (OtherError "TypeError") catalogue shopper 1%Z onPageTwo
  = ({| state :=
          {| commerceData :=
               Some {| page := Some 2%Z; minPage := Some 1%Z;
                       products := Some ["first"; "second"]; payload := () |};
             isLoading := false |};
        events :=
          [DataLoaded {| page := Some 2%Z; minPage := Some 1%Z;
                         products := Some ["first"; "second"]; payload := () |}] |},
     Fulfilled {| page := Some 2%Z; minPage := Some 1%Z;
                  products := Some ["first"; "second"]; payload := () |}).
Proof.
  refine (proj2 (loadMore_merges (OtherError "TypeError") catalogue shopper 1%Z
                   onPageTwo (shelf 2 (Some ["second"])) (shelf 1 (Some ["first"]))
                   1%Z 2%Z ["second"] ["first"]
                   eq_refl _ eq_refl eq_refl eq_refl eq_refl eq_refl) _).
  - intros m q Hm. discriminate Hm.
  - simpl. lia.
Defined.

Lemma loadMore_leaves_loading_witness :
  isLoading (state (loadMore (OtherError "TypeError") catalogue shopper 2%Z
                      onPageTwo).1) = true
  ∧ events (loadMore (OtherError "TypeError") catalogue shopper 2%Z onPageTwo).1 = [].
Proof.
  destruct (loadMore_leaves_loading (OtherError "TypeError") catalogue shopper 2%Z
              onPageTwo (shelf 2 (Some ["second"])) eq_refl) as (Hloading & Hevents & _).
  - right. exists (shelf 2 (Some ["second"])), 2%Z, 2%Z.
    repeat split; simpl; lia.
  - split; [exact Hloading|exact Hevents].
Defined.

Lemma loadMore_merge_error_witness :
  isLoading (state (loadMore (OtherError "TypeError") catalogue shopper 4%Z
                      onPageTwo).1) = false
  ∧ events (loadMore (OtherError "TypeError") catalogue shopper 4%Z onPageTwo).1
    = [DataError (OtherError "TypeError"); ConsoleError (OtherError "TypeError")].
Proof.
  destruct (loadMore_merge_error (OtherError "TypeError") catalogue shopper 4%Z
              onPageTwo (shelf 2 (Some ["second"])) (shelf 4 None) 4%Z 2%Z
              eq_refl eq_refl eq_refl eq_refl) as (_ & Hloading & Hevents & _).
  - lia.
  - reflexivity.
  - split; [exact Hloading|exact Hevents].
Defined.

End CommerceFacts.
